(** * video_transcriber: speaker-attributed transcripts

    A shallow embedding of the transcript core of the repository:
    [transcript_gen_logic.py] (segment filter, word aligner, word loop,
    smoothing pass, utterance grouper) and the diarization loop, the word
    aligner, the word loop, the smoothing and the grouping of
    [video_transcriber.py].

    Numbers.  The time stamps are Python floats, as [json.load] reads every
    JSON number written with a fraction or an exponent and as the ASR and
    the diarization write them.  They are binary64 values here ([float]),
    with the rounding additions, subtractions and divisions and the
    comparisons of IEEE 754, so that [2.3 - 2.0] is below [0.3] as it is
    in the code; the integer literals [0] and [2] of the code act on them as
    [0.0] and [2.0].  JSON integers (Python [int]s) are outside the model.
    The running minimum of the nearest-neighbour scan starts at
    [float('inf')], modelled as a top element ([Inf]) that every distance
    is below: this is the test [dist < min_dist] of the code on every
    distance that is finite, as the difference of two time stamps is unless
    they are infinite, NaN or more than the largest float apart.

    Records.  A diarization segment is a dict with the keys ['start'],
    ['end'] and ['speaker'], as the diarization loop of
    [video_transcriber.py] writes it to [diarization.json], and an assigned
    word is a dict with the four keys the word loop gives it; they are
    records here.  The raw ASR word records, whose keys may be missing, are
    finite maps from keys to JSON values. *)

From Stdlib Require Import ZArith Zpower Bool Ascii String List Lia Floats.
From stdpp Require Import base option list strings gmap.

Set Warnings "-inexact-float".

Local Open Scope float_scope.

(** [x < y] and [x <= y] on floats as propositions: the test of the code
    succeeds. *)
Declare Scope time_scope.
Notation "x < y" := (PrimFloat.ltb x y = true) : time_scope.
Notation "x <= y" := (PrimFloat.leb x y = true) : time_scope.
Notation "x <= y <= z" := (PrimFloat.leb x y = true /\ PrimFloat.leb y z = true)
  : time_scope.
Local Open Scope time_scope.

(** ** Python numbers and values *)

(** The place of a float on the number line, for the proofs about [<] and
    [<=]: its class (from minus infinity to plus infinity), then exponent
    and mantissa, both negated below zero.  A NaN has no place. *)
Definition rank (x : spec_float) : option (Z * Z * Z) :=
  match x with
  | S754_nan => None
  | S754_zero _ => Some (0, 0, 0)%Z
  | S754_infinity s => Some (if s then (-2)%Z else 2%Z, 0%Z, 0%Z)
  | S754_finite s m e =>
      Some (if s then ((-1)%Z, (- e)%Z, Z.neg m) else (1%Z, e, Z.pos m))
  end.

(** The lexicographic order of ranks. *)
Definition rank_lt (a b : Z * Z * Z) : Prop :=
  (a.1.1 < b.1.1
   \/ (a.1.1 = b.1.1
       /\ (a.1.2 < b.1.2 \/ (a.1.2 = b.1.2 /\ a.2 < b.2))))%Z.

Definition rank_eq (a b : Z * Z * Z) : Prop :=
  (a.1.1 = b.1.1 /\ a.1.2 = b.1.2 /\ a.2 = b.2)%Z.

(** A float above zero: positive and finite, or plus infinity. *)
Definition above_zero (x : spec_float) : bool :=
  match x with
  | S754_finite false _ _ | S754_infinity false => true
  | _ => false
  end.

(** The running minimum of the nearest-neighbour scan starts at
    [float('inf')]. *)
Inductive ext : Type :=
  | Fin (f : float)
  | Inf.

(** [dist < min_dist] where [dist] is finite. *)
Definition lt_ext (dist : float) (min_dist : ext) : bool :=
  match min_dist with
  | Inf => true
  | Fin m => dist <? m
  end.

(** A JSON value stored in a word record: a number (a float) or a string. *)
Inductive json : Type :=
  | JNum (f : float)
  | JStr (s : string).

(** The exceptions the word loop can raise. *)
Inductive exn : Type :=
  | KeyError (key : string)
  | TypeError.

(** A computation that returns a value or raises. *)
Definition result (A : Type) : Type := exn + A.

Definition ret {A : Type} (a : A) : result A := inr a.
Definition raise {A : Type} (e : exn) : result A := inl e.
Definition bind {A B : Type} (m : result A) (k : A -> result B) : result B :=
  match m with
  | inl e => inl e
  | inr a => k a
  end.

Notation "'let*' x ':=' m 'in' k" := (bind m (fun x => k))
  (at level 10, x name, m at level 100, k at level 200).

(** [for x in xs: ...] with a body that may raise: the first exception stops
    the loop. *)
Fixpoint for_each {A B : Type} (body : A -> result B) (xs : list A)
  : result (list B) :=
  match xs with
  | [] => ret []
  | x :: rest =>
      let* y := body x in
      let* ys := for_each body rest in
      ret (y :: ys)
  end.

(** A raw ASR word record: a dict from keys to JSON values. *)
Abbreviation word_record := (gmap string json).

(** [d.get(key, default)]. *)
Definition dict_get (d : word_record) (key : string) (default : json) : json :=
  match d !! key with
  | Some v => v
  | None => default
  end.

(** [d[key]], which raises [KeyError] on a missing key. *)
Definition dict_index (d : word_record) (key : string) : result json :=
  match d !! key with
  | Some v => ret v
  | None => raise (KeyError key)
  end.

(** A value used in arithmetic: anything but a number raises [TypeError]
    at [(word_start + word_end) / 2]. *)
Definition as_number (v : json) : result float :=
  match v with
  | JNum f => ret f
  | JStr _ => raise TypeError
  end.

(** A value handed to [" ".join]: anything but a string raises
    [TypeError]. *)
Definition as_string (v : json) : result string :=
  match v with
  | JStr s => ret s
  | JNum _ => raise TypeError
  end.

(** [" ".join(words)]. *)
Fixpoint join (words : list string) : string :=
  match words with
  | [] => ""
  | [w] => w
  | w :: rest => w +:+ " " +:+ join rest
  end.

(** ** The data model *)

(** A diarization segment [{'start': _, 'end': _, 'speaker': _}]. *)
Record Segment : Type := mkSegment {
  seg_start : float;
  seg_end : float;
  seg_speaker : string
}.

(** An entry of [word_speakers]:
    [{"word": _, "start": _, "end": _, "speaker": _}]. *)
Record AssignedWord : Type := mkAssigned {
  aw_word : string;
  aw_start : float;
  aw_end : float;
  aw_speaker : string
}.

(** An entry of [final_transcript]: [{"speaker": _, "text": _}]. *)
Record Utterance : Type := mkUtterance {
  utt_speaker : string;
  utt_text : string
}.

(** [curr['speaker'] = sp]: the other three fields are kept. *)
Definition set_speaker (curr : AssignedWord) (sp : string) : AssignedWord :=
  {| aw_word := aw_word curr;
     aw_start := aw_start curr;
     aw_end := aw_end curr;
     aw_speaker := sp |}.

(** ** transcript_gen_logic.py *)

Module TranscriptGenLogic.

(** [filter_short_segments(segments, threshold)]: the list comprehension
    [[s for s in segments if (s['end'] - s['start']) >= threshold]]. *)
Definition filter_short_segments (segments : list Segment) (threshold : float)
  : list Segment :=
  List.filter (fun s => threshold <=? seg_end s - seg_start s) segments.

(** The default value of the parameter [threshold]. *)
Definition default_threshold : float := 0.3.

(** The test of the first loop: [seg['start'] <= word_mid <= seg['end']]. *)
Definition contains_mid (word_mid : float) (seg : Segment) : bool :=
  (seg_start seg <=? word_mid) && (word_mid <=? seg_end seg).

(** The first loop of [get_speaker_improved]: it returns at the first
    segment that contains the midpoint; [None] when the loop runs through. *)
Fixpoint exact_match (word_mid : float) (segments : list Segment) : option string :=
  match segments with
  | [] => None
  | seg :: rest =>
      if contains_mid word_mid seg then Some (seg_speaker seg)
      else exact_match word_mid rest
  end.

(** The distance [dist] of the second loop; the integer [0] of its last
    case compares with floats as [0.0] does. *)
Definition seg_dist (word_start word_end : float) (seg : Segment) : float :=
  if word_end <? seg_start seg then seg_start seg - word_end
  else if seg_end seg <? word_start then word_start - seg_end seg
  else 0.

(** One round of the second loop on the pair
    [(closest_speaker, min_dist)]. *)
Definition closest_step (word_start word_end : float) (st : string * ext)
    (seg : Segment) : string * ext :=
  let dist := seg_dist word_start word_end seg in
  if lt_ext dist (snd st) then (seg_speaker seg, Fin dist) else st.

(** The second loop, from [closest_speaker = "Unknown"] and
    [min_dist = float('inf')]. *)
Definition closest_match (word_start word_end : float) (segments : list Segment)
  : string :=
  fst (fold_left (closest_step word_start word_end) segments ("Unknown", Inf)).

(** [word_mid = (word_start + word_end) / 2]. *)
Definition word_mid (word_start word_end : float) : float :=
  (word_start + word_end) / 2.

Definition get_speaker_improved (word_start word_end : float)
    (segments : list Segment) : string :=
  match exact_match (word_mid word_start word_end) segments with
  | Some speaker => speaker
  | None => closest_match word_start word_end segments
  end.

(** The two reads at the head of the word loop.  The default is the
    integer [0], which acts as [0.0] in every operation that follows. *)
Definition w_start (word_data : word_record) : json :=
  dict_get word_data "start" (dict_get word_data "start_offset" (JNum 0)).

Definition w_end (word_data : word_record) : json :=
  dict_get word_data "end" (dict_get word_data "end_offset" (JNum 0)).

(** The body of the word loop (step 1).  The entry appended to
    [word_speakers] holds the word as it was read; it is only required to be
    a string when it is joined (see [joinable]). *)
Definition assign_word (speaker_segments : list Segment)
    (word_data : word_record) : result (json * float * float * string) :=
  let* ws := as_number (w_start word_data) in
  let* we := as_number (w_end word_data) in
  let speaker := get_speaker_improved ws we speaker_segments in
  let* w := dict_index word_data "word" in
  ret (w, ws, we, speaker).

(** Every word of [word_speakers] ends up in one [" ".join], which raises
    [TypeError] on a word that is not a string. *)
Definition joinable (entry : json * float * float * string) : result AssignedWord :=
  let '(w, ws, we, speaker) := entry in
  let* text := as_string w in
  ret {| aw_word := text; aw_start := ws; aw_end := we; aw_speaker := speaker |}.

(** Step 2: the smoothing threshold. *)
Definition gap_threshold : float := 0.25.

(** The body of the smoothing loop at index [i].  [range(1, len)] keeps
    [i - 1] and [i] inside the list (lemma [smooth_step_in_range]); outside
    it the list is returned as it is. *)
Definition smooth_step (word_speakers : list AssignedWord) (i : nat)
  : list AssignedWord :=
  match word_speakers !! (i - 1)%nat, word_speakers !! i with
  | Some prev, Some curr =>
      let gap := aw_start curr - aw_end prev in
      if gap <? gap_threshold
      then <[i := set_speaker curr (aw_speaker prev)]> word_speakers
      else word_speakers
  | _, _ => word_speakers
  end.

(** [for i in range(1, len(word_speakers)): ...], updating the list in
    place. *)
Definition smooth (word_speakers : list AssignedWord) : list AssignedWord :=
  fold_left smooth_step (seq 1 (length word_speakers - 1)) word_speakers.

(** Step 3: the three variables of the grouping loop. *)
Record group_state : Type := mkGroupState {
  final_transcript : list Utterance;
  current_speaker : option string;
  current_sentence : list string
}.

(** [final_transcript.append({"speaker": current_speaker, "text": ...})].
    The speaker of an utterance is a string; with [current_speaker] still
    [None] nothing is appended (no flush meets that case, see
    [group_loop_sentence]). *)
Definition flush (st : group_state) : list Utterance :=
  match current_speaker st with
  | Some sp =>
      final_transcript st ++
        [{| utt_speaker := sp; utt_text := join (current_sentence st) |}]
  | None => final_transcript st
  end.

(** The body of the grouping loop. *)
Definition group_step (st : group_state) (item : AssignedWord) : group_state :=
  let speaker := aw_speaker item in
  let word := aw_word item in
  if decide (Some speaker <> current_speaker st) then
    {| final_transcript :=
         match current_speaker st with
         | Some _ => flush st
         | None => final_transcript st
         end;
       current_speaker := Some speaker;
       current_sentence := [word] |}
  else
    {| final_transcript := final_transcript st;
       current_speaker := current_speaker st;
       current_sentence := current_sentence st ++ [word] |}.

Definition group_init : group_state :=
  {| final_transcript := []; current_speaker := None; current_sentence := [] |}.

Definition group_loop (word_speakers : list AssignedWord) : group_state :=
  fold_left group_step word_speakers group_init.

(** After the loop: [if current_sentence: final_transcript.append(...)]. *)
Definition finish (st : group_state) : list Utterance :=
  match current_sentence st with
  | [] => final_transcript st
  | _ :: _ => flush st
  end.

(** The grouping loop followed by the flush of the last sentence. *)
Definition group (word_speakers : list AssignedWord) : list Utterance :=
  finish (group_loop word_speakers).

(** A line of [final_transcript.txt]. *)
Definition format_line (line : Utterance) : string :=
  "[" +:+ utt_speaker line +:+ "]: " +:+ utt_text line
      +:+ String (ascii_of_nat 10) "".

(** [generate_transcript] without its file accesses: [timestamps] is
    [transcription.get('timestamps')], [None] when the key is missing;
    the result is the list [final_transcript], or the exception raised
    before anything is written. *)
Definition generate_transcript (timestamps : option (list word_record))
    (speaker_segments : list Segment) : result (list Utterance) :=
  let speaker_segments := filter_short_segments speaker_segments default_threshold in
  let word_timestamps := default [] timestamps in
  let* entries := for_each (assign_word speaker_segments) word_timestamps in
  let* word_speakers := for_each joinable entries in
  ret (group (smooth word_speakers)).

End TranscriptGenLogic.

(** ** video_transcriber.py *)

Module VideoTranscriber.

(** The second loop of [get_speaker_for_word]: [dist] starts at [0] and has
    no [else] branch. *)
Definition seg_dist (word_start word_end : float) (seg : Segment) : float :=
  let dist := 0 in
  if word_end <? seg_start seg then seg_start seg - word_end
  else if seg_end seg <? word_start then word_start - seg_end seg
  else dist.

Definition closest_step (word_start word_end : float) (st : string * ext)
    (seg : Segment) : string * ext :=
  let dist := seg_dist word_start word_end seg in
  if lt_ext dist (snd st) then (seg_speaker seg, Fin dist) else st.

Fixpoint exact_match (word_mid : float) (segments : list Segment) : option string :=
  match segments with
  | [] => None
  | seg :: rest =>
      if (seg_start seg <=? word_mid) && (word_mid <=? seg_end seg)
      then Some (seg_speaker seg)
      else exact_match word_mid rest
  end.

Definition get_speaker_for_word (word_start word_end : float)
    (segments : list Segment) : string :=
  let word_mid := (word_start + word_end) / 2 in
  match exact_match word_mid segments with
  | Some speaker => speaker
  | None =>
      fst (fold_left (closest_step word_start word_end) segments
             ("Unknown", Inf))
  end.

(** The body of the word loop of [video_transcriber.py]: the three fields
    are indexed, so a missing one raises [KeyError]. *)
Definition assign_word (speaker_segments : list Segment)
    (word_data : word_record) : result (json * float * float * string) :=
  let* word := dict_index word_data "word" in
  let* w_start := dict_index word_data "start" in
  let* w_end := dict_index word_data "end" in
  let* ws := as_number w_start in
  let* we := as_number w_end in
  let speaker := get_speaker_for_word ws we speaker_segments in
  ret (word, ws, we, speaker).

(** A turn of [diarization_result.itertracks(yield_label=True)]: the
    interval [turn] and the label (the track name is not used). *)
Record Track : Type := mkTrack {
  turn_start : float;
  turn_end : float;
  track_speaker : string
}.

(** The body of the diarization loop: a turn shorter than [0.3] is skipped
    ([continue]), any other is appended to [speaker_segments]. *)
Definition keep_turn (speaker_segments : list Segment) (t : Track)
  : list Segment :=
  if (turn_end t - turn_start t <? 0.3) then speaker_segments
  else speaker_segments ++
         [{| seg_start := turn_start t; seg_end := turn_end t;
             seg_speaker := track_speaker t |}].

(** The list [speaker_segments] that the script saves to
    [diarization.json]. *)
Definition speaker_segments_of (tracks : list Track) : list Segment :=
  fold_left keep_turn tracks [].

(** The smoothing loop of the script. *)
Definition smooth_step (word_speakers : list AssignedWord) (i : nat)
  : list AssignedWord :=
  match word_speakers !! (i - 1)%nat, word_speakers !! i with
  | Some prev, Some curr =>
      let gap := aw_start curr - aw_end prev in
      if gap <? 0.25
      then <[i := set_speaker curr (aw_speaker prev)]> word_speakers
      else word_speakers
  | _, _ => word_speakers
  end.

Definition smooth (word_speakers : list AssignedWord) : list AssignedWord :=
  fold_left smooth_step (seq 1 (length word_speakers - 1)) word_speakers.

(** The grouping loop of the script, on the three variables
    [final_transcript], [current_speaker] and [current_sentence]. *)
Definition group_step (st : TranscriptGenLogic.group_state)
    (item : AssignedWord) : TranscriptGenLogic.group_state :=
  let speaker := aw_speaker item in
  let word := aw_word item in
  if decide (Some speaker <> TranscriptGenLogic.current_speaker st) then
    {| TranscriptGenLogic.final_transcript :=
         match TranscriptGenLogic.current_speaker st with
         | Some _ => TranscriptGenLogic.flush st
         | None => TranscriptGenLogic.final_transcript st
         end;
       TranscriptGenLogic.current_speaker := Some speaker;
       TranscriptGenLogic.current_sentence := [word] |}
  else
    {| TranscriptGenLogic.final_transcript :=
         TranscriptGenLogic.final_transcript st;
       TranscriptGenLogic.current_speaker :=
         TranscriptGenLogic.current_speaker st;
       TranscriptGenLogic.current_sentence :=
         TranscriptGenLogic.current_sentence st ++ [word] |}.

Definition group (word_speakers : list AssignedWord) : list Utterance :=
  TranscriptGenLogic.finish
    (fold_left group_step word_speakers TranscriptGenLogic.group_init).

(** The list [final_transcript] of the script, from the ASR word records
    [word_timestamps] and the turns of the diarization, or the exception
    that stops the script before the transcript is printed. *)
Definition final_transcript (word_timestamps : list word_record)
    (tracks : list Track) : result (list Utterance) :=
  let speaker_segments := speaker_segments_of tracks in
  let* entries := for_each (assign_word speaker_segments) word_timestamps in
  let* word_speakers := for_each TranscriptGenLogic.joinable entries in
  ret (group (smooth word_speakers)).

End VideoTranscriber.

Import TranscriptGenLogic.

(** ** Notions the properties are stated with *)

(** [text.split(" ")]: a split at every single space (two spaces in a row
    give an empty piece, and the empty string gives one empty piece). *)
Fixpoint split_space (text : string) : list string :=
  match text with
  | EmptyString => [EmptyString]
  | String c rest =>
      if Ascii.eqb c " "%char then EmptyString :: split_space rest
      else match split_space rest with
           | piece :: pieces => String c piece :: pieces
           | [] => [String c EmptyString]
           end
  end.

(** A word text without a space character. *)
Fixpoint no_space (text : string) : bool :=
  match text with
  | EmptyString => true
  | String c rest => negb (Ascii.eqb c " "%char) && no_space rest
  end.

(** The smoothing loop read as a recursion over the list: [prev] is the
    word before the head of [rest], as the loop left it.  [smooth_sweep]
    shows that the loop computes it. *)
Fixpoint cascade (prev : AssignedWord) (rest : list AssignedWord)
  : list AssignedWord :=
  match rest with
  | [] => []
  | curr :: rest' =>
      let curr' :=
        if aw_start curr - aw_end prev <? gap_threshold
        then set_speaker curr (aw_speaker prev) else curr in
      curr' :: cascade curr' rest'
  end.

Definition sweep (word_speakers : list AssignedWord) : list AssignedWord :=
  match word_speakers with
  | [] => []
  | first :: rest => first :: cascade first rest
  end.

(** The gap between the words at [j] and [j + 1] is below the threshold. *)
Definition tight (word_speakers : list AssignedWord) (j : nat) : Prop :=
  exists prev curr,
    word_speakers !! j = Some prev /\ word_speakers !! S j = Some curr
    /\ aw_start curr - aw_end prev < gap_threshold.

(** The grouping loop read as a recursion over the list, from a state with
    [current_speaker = sp] and [current_sentence = buf], final flush
    included.  [group_loop_from] shows that the loop computes it. *)
Fixpoint group_from (sp : string) (buf : list string)
    (word_speakers : list AssignedWord) : list Utterance :=
  match word_speakers with
  | [] => [{| utt_speaker := sp; utt_text := join buf |}]
  | item :: rest =>
      if decide (aw_speaker item = sp)
      then group_from sp (buf ++ [aw_word item]) rest
      else {| utt_speaker := sp; utt_text := join buf |}
           :: group_from (aw_speaker item) [aw_word item] rest
  end.

(** The maximal runs of consecutive words that carry one speaker, each with
    its speaker. *)
Fixpoint runs_from (sp : string) (block : list AssignedWord)
    (word_speakers : list AssignedWord) : list (string * list AssignedWord) :=
  match word_speakers with
  | [] => [(sp, block)]
  | item :: rest =>
      if decide (aw_speaker item = sp)
      then runs_from sp (block ++ [item]) rest
      else (sp, block) :: runs_from (aw_speaker item) [item] rest
  end.

Definition runs (word_speakers : list AssignedWord)
  : list (string * list AssignedWord) :=
  match word_speakers with
  | [] => []
  | item :: rest => runs_from (aw_speaker item) [item] rest
  end.

(** A run: a speaker and a non-empty block of words that all carry it. *)
Definition is_run (r : string * list AssignedWord) : Prop :=
  snd r <> [] /\ Forall (fun w => aw_speaker w = fst r) (snd r).

(** Neighbours in the list differ. *)
Fixpoint alternating (speakers : list string) : Prop :=
  match speakers with
  | a :: rest =>
      match rest with
      | b :: _ => a <> b
      | [] => True
      end /\ alternating rest
  | [] => True
  end.

(** The utterance of a run: its speaker and the join of its words. *)
Definition utterance_of_run (r : string * list AssignedWord) : Utterance :=
  {| utt_speaker := fst r; utt_text := join (map aw_word (snd r)) |}.

(** The words read back from the utterances: every text split at single
    spaces, the pieces put end to end. *)
Definition words_of (utterances : list Utterance) : list string :=
  concat (map (fun u => split_space (utt_text u)) utterances).

(** A block of words re-expresses an utterance: it is not empty, its words
    joined give the text, and each carries the speaker of the utterance. *)
Definition reexpresses (u : Utterance) (block : list AssignedWord) : Prop :=
  block <> []
  /\ utt_text u = join (map aw_word block)
  /\ Forall (fun w => aw_speaker w = utt_speaker u) block.

(** A word record without a start time or without an end time, under
    either name. *)
Definition lacks_timing (word_data : word_record) : Prop :=
  (word_data !! "start" = None /\ word_data !! "start_offset" = None)
  \/ (word_data !! "end" = None /\ word_data !! "end_offset" = None).

(** The segment of a turn. *)
Definition segment_of_track (t : VideoTranscriber.Track) : Segment :=
  {| seg_start := VideoTranscriber.turn_start t;
     seg_end := VideoTranscriber.turn_end t;
     seg_speaker := VideoTranscriber.track_speaker t |}.

(** A list of labels with every block of equal neighbours cut down to one
    label. *)
Fixpoint squeeze (speakers : list string) : list string :=
  match speakers with
  | [] => []
  | a :: rest =>
      match rest with
      | b :: _ => if decide (a = b) then squeeze rest else a :: squeeze rest
      | [] => [a]
      end
  end.

(** The number of speaker changes along [sp :: speakers of ws]. *)
Fixpoint changes (sp : string) (ws : list AssignedWord) : nat :=
  match ws with
  | [] => 0
  | w :: rest =>
      (if decide (aw_speaker w = sp) then 0 else 1)
      + changes (aw_speaker w) rest
  end.

(** A word record with the three keys that [video_transcriber.py] indexes. *)
Definition complete (word_data : word_record) : Prop :=
  is_Some (word_data !! "word") /\ is_Some (word_data !! "start")
  /\ is_Some (word_data !! "end").


(** A float that is a number: not a NaN. *)
Definition is_number (x : float) : Prop := (x =? x) = true.

(** A speaker label without a closing bracket. *)
Fixpoint no_bracket (label : string) : bool :=
  match label with
  | EmptyString => true
  | String c rest => negb (Ascii.eqb c "]"%char) && no_bracket rest
  end.


(** * Properties *)

(** ** Comparisons of floats *)

Lemma SFcompare_rank (x y : spec_float) (a b : Z * Z * Z) :
  rank x = Some a -> rank y = Some b ->
  SFcompare x y
  = Some (if decide (rank_lt a b) then Lt
          else if decide (rank_eq a b) then Eq else Gt).
Proof.
  unfold rank_lt, rank_eq.
  destruct x as [sx|sx| |sx mx ex], y as [sy|sy| |sy my ey];
    try destruct sx; try destruct sy; cbn [rank SFcompare];
    intros [= <-] [= <-]; cbn [fst snd];
    try (repeat case_decide; first [reflexivity|lia]).
  - change (PosDef.Pos.compare_cont Eq mx my) with (Pos.compare mx my).
    destruct (Z.compare_spec ex ey), (Pos.compare_spec mx my); cbn [CompOpp];
      repeat case_decide; first [reflexivity|lia].
  - change (PosDef.Pos.compare_cont Eq mx my) with (Pos.compare mx my).
    destruct (Z.compare_spec ex ey), (Pos.compare_spec mx my);
      repeat case_decide; first [reflexivity|lia].
Qed.

Lemma SFcompare_nan (x y : spec_float) :
  rank x = None \/ rank y = None -> SFcompare x y = None.
Proof.
  destruct x as [sx|sx| |sx mx ex], y as [sy|sy| |sy my ey];
    cbn [rank]; intros [H|H]; try discriminate; reflexivity.
Qed.

Lemma ltb_rank (x y : float) :
  x < y <->
  exists a b, rank (Prim2SF x) = Some a /\ rank (Prim2SF y) = Some b
              /\ rank_lt a b.
Proof.
  rewrite FloatAxioms.ltb_spec. unfold SFltb.
  destruct (rank (Prim2SF x)) as [a|] eqn:Ea, (rank (Prim2SF y)) as [b|] eqn:Eb;
    try (rewrite SFcompare_nan by auto; split;
         [discriminate|intros (? & ? & ? & ? & _); discriminate]).
  rewrite (SFcompare_rank _ _ a b Ea Eb). split.
  - intros H. exists a, b. repeat split.
    case_decide; [assumption|]. case_decide; discriminate.
  - intros (a' & b' & [= <-] & [= <-] & H). now rewrite decide_True.
Qed.

Lemma leb_rank (x y : float) :
  x <= y <->
  exists a b, rank (Prim2SF x) = Some a /\ rank (Prim2SF y) = Some b
              /\ (rank_lt a b \/ rank_eq a b).
Proof.
  rewrite FloatAxioms.leb_spec. unfold SFleb.
  destruct (rank (Prim2SF x)) as [a|] eqn:Ea, (rank (Prim2SF y)) as [b|] eqn:Eb;
    try (rewrite SFcompare_nan by auto; split;
         [discriminate|intros (? & ? & ? & ? & _); discriminate]).
  rewrite (SFcompare_rank _ _ a b Ea Eb). split.
  - intros H. exists a, b. repeat split.
    case_decide; [auto|]. case_decide; [auto|discriminate].
  - intros (a' & b' & [= <-] & [= <-] & [H|H]).
    + now rewrite decide_True.
    + case_decide; [reflexivity|]. now rewrite decide_True.
Qed.

Lemma eqb_rank (x : float) :
  (x =? x) = true <-> exists a, rank (Prim2SF x) = Some a.
Proof.
  rewrite FloatAxioms.eqb_spec. unfold SFeqb.
  destruct (rank (Prim2SF x)) as [a|] eqn:Ea.
  - rewrite (SFcompare_rank _ _ a a Ea Ea). split; [eauto|intros _].
    unfold rank_lt, rank_eq. repeat case_decide; first [reflexivity|lia].
  - rewrite SFcompare_nan by auto. split; [discriminate|].
    intros [a H]. discriminate.
Qed.

Lemma float_lt_irrefl (x : float) : (x <? x) = false.
Proof.
  destruct (x <? x) eqn:E; [|reflexivity].
  apply ltb_rank in E. destruct E as (a & b & Ha & Hb & H).
  rewrite Ha in Hb. injection Hb as <-. unfold rank_lt in H. lia.
Qed.


Lemma float_le_lt_trans (x y z : float) : x <= y -> y < z -> x < z.
Proof.
  rewrite leb_rank, !ltb_rank.
  intros (a & b & Ha & Hb & H1) (b' & c & Hb' & Hc & H2).
  rewrite Hb in Hb'. injection Hb' as <-.
  exists a, c. repeat split; auto. unfold rank_lt, rank_eq in *. lia.
Qed.

Lemma float_le_trans (x y z : float) : x <= y -> y <= z -> x <= z.
Proof.
  rewrite !leb_rank.
  intros (a & b & Ha & Hb & H1) (b' & c & Hb' & Hc & H2).
  rewrite Hb in Hb'. injection Hb' as <-.
  exists a, c. repeat split; auto. unfold rank_lt, rank_eq in *. lia.
Qed.

(** Away from NaN, [x < y] is the negation of [y <= x]. *)
Lemma float_lt_not_le (x y : float) :
  (x =? x) = true -> (y =? y) = true -> (x <? y) = negb (y <=? x).
Proof.
  intros Hx Hy. apply eqb_rank in Hx, Hy.
  destruct Hx as [a Ha], Hy as [b Hb].
  destruct (x <? y) eqn:E1, (y <=? x) eqn:E2; try reflexivity; exfalso.
  - apply ltb_rank in E1. apply leb_rank in E2.
    destruct E1 as (a1 & b1 & Ha1 & Hb1 & H1).
    destruct E2 as (b2 & a2 & Hb2 & Ha2 & H2).
    rewrite Ha in Ha1, Ha2. rewrite Hb in Hb1, Hb2.
    injection Ha1 as <-. injection Ha2 as <-.
    injection Hb1 as <-. injection Hb2 as <-.
    unfold rank_lt, rank_eq in *. lia.
  - assert (H : rank_lt a b \/ rank_lt b a \/ rank_eq b a)
      by (unfold rank_lt, rank_eq; lia).
    destruct H as [H|H].
    + assert (x < y) by (apply ltb_rank; eauto). congruence.
    + assert (y <= x) by (apply leb_rank; eauto 6). congruence.
Qed.

Lemma float_lt_le (x y : float) : x < y -> x <= y.
Proof.
  rewrite ltb_rank, leb_rank.
  intros (a & b & Ha & Hb & H). exists a, b. auto.
Qed.

(** ** Subtraction of floats *)

Lemma fexp_eq (e : Z) : fexp prec emax e = Z.max (e - 53) (-1074).
Proof. reflexivity. Qed.

Lemma digits2_pos_bounds (m : positive) :
  (2 ^ (Z.pos (digits2_pos m) - 1) <= Z.pos m < 2 ^ Z.pos (digits2_pos m))%Z.
Proof.
  induction m as [m IH|m IH|]; cbn [digits2_pos].
  - rewrite Pos2Z.inj_succ, Z.pow_succ_r by lia.
    replace (Z.succ (Z.pos (digits2_pos m)) - 1)%Z
      with (Z.succ (Z.pos (digits2_pos m) - 1)) by lia.
    rewrite Z.pow_succ_r by lia. lia.
  - rewrite Pos2Z.inj_succ, Z.pow_succ_r by lia.
    replace (Z.succ (Z.pos (digits2_pos m)) - 1)%Z
      with (Z.succ (Z.pos (digits2_pos m) - 1)) by lia.
    rewrite Z.pow_succ_r by lia. lia.
  - simpl. lia.
Qed.

Lemma shl_align_value (m : positive) (e e' : Z) :
  (e' <= e)%Z ->
  Z.pos (fst (shl_align m e e')) = (Z.pos m * 2 ^ (e - e'))%Z.
Proof.
  intros Hle. unfold shl_align.
  destruct (e' - e)%Z as [|d|d] eqn:E; cbn [fst]; try lia.
  - replace (e - e')%Z with 0%Z by lia. simpl. lia.
  - replace (e - e')%Z with (Z.pos d) by lia.
    change (Pos.iter xO m d) with (shift_pos d m).
    rewrite shift_pos_correct, Z.pow_pos_fold. lia.
Qed.

Lemma shl_align_exponent (m : positive) (e e' : Z) :
  snd (shl_align m e e') = Z.min e e'.
Proof.
  unfold shl_align. destruct (e' - e)%Z eqn:E; cbn [snd]; lia.
Qed.

Lemma shr_1_m (mrs : shr_record) :
  (0 <= shr_m mrs)%Z -> shr_m (shr_1 mrs) = (shr_m mrs / 2)%Z.
Proof.
  destruct mrs as [m r s]. cbn [shr_m]. intros Hm.
  destruct m as [|[p|p|]|p]; cbn [shr_1 shr_m].
  - reflexivity.
  - apply Z.div_unique with (r := 1%Z); lia.
  - apply Z.div_unique with (r := 0%Z); lia.
  - reflexivity.
  - lia.
Qed.

Lemma pow2_double (p : positive) :
  (2 ^ Z.pos p~0 = 2 ^ Z.pos p * 2 ^ Z.pos p)%Z.
Proof. rewrite <- Z.pow_add_r by lia. f_equal. lia. Qed.

Lemma pow2_double_succ (p : positive) :
  (2 ^ Z.pos p~1 = 2 * (2 ^ Z.pos p * 2 ^ Z.pos p))%Z.
Proof.
  rewrite <- Z.pow_add_r, <- Z.pow_succ_r by lia. f_equal. lia.
Qed.

Lemma iter_shr_1_m (p : positive) (mrs : shr_record) :
  (0 <= shr_m mrs)%Z ->
  shr_m (SpecFloat.iter_pos shr_1 p mrs) = (shr_m mrs / 2 ^ Z.pos p)%Z.
Proof.
  revert mrs. induction p as [p IH|p IH|]; intros mrs Hm;
    cbn [SpecFloat.iter_pos].
  - assert (H1 : (0 <= shr_m (shr_1 mrs))%Z)
      by (rewrite shr_1_m by exact Hm; apply Z.div_pos; lia).
    assert (H2 : (0 <= shr_m (SpecFloat.iter_pos shr_1 p (shr_1 mrs)))%Z)
      by (rewrite IH by exact H1; apply Z.div_pos; [exact H1|lia]).
    rewrite IH by exact H2. rewrite IH by exact H1.
    rewrite shr_1_m by exact Hm.
    rewrite !Z.div_div by lia.
    now rewrite pow2_double_succ.
  - assert (H2 : (0 <= shr_m (SpecFloat.iter_pos shr_1 p mrs))%Z)
      by (rewrite IH by exact Hm; apply Z.div_pos; [exact Hm|lia]).
    rewrite IH by exact H2. rewrite IH by exact Hm.
    rewrite Z.div_div by lia.
    now rewrite pow2_double.
  - now rewrite shr_1_m.
Qed.

Lemma shr_record_of_loc_m (m : Z) (l : location) :
  shr_m (shr_record_of_loc m l) = m.
Proof. destruct l as [|[]]; reflexivity. Qed.

(** Shifting a positive mantissa to its place leaves it positive: above
    the least exponent a shift removes the digits beyond the precision and
    no other. *)
Lemma shr_fexp_positive (m : positive) (e : Z) (l : location) :
  (-1074 <= e)%Z ->
  (0 < shr_m (fst (shr_fexp prec emax (Z.pos m) e l)))%Z
  /\ (-1074 <= snd (shr_fexp prec emax (Z.pos m) e l))%Z.
Proof.
  intros He. unfold shr_fexp, shr. rewrite fexp_eq. cbn [Zdigits2].
  pose proof (digits2_pos_bounds m) as [Hlo _].
  destruct (Z.max (Z.pos (digits2_pos m) + e - 53) (-1074) - e)%Z
    as [|n|n] eqn:E; cbn [fst snd]; rewrite ?shr_record_of_loc_m; try lia.
  rewrite iter_shr_1_m by (rewrite shr_record_of_loc_m; lia).
  rewrite shr_record_of_loc_m. split; [|lia].
  apply Z.div_str_pos. split; [lia|].
  eapply Z.le_trans; [|exact Hlo].
  apply Z.pow_le_mono_r; lia.
Qed.

Lemma round_nearest_even_positive (m : Z) (l : location) :
  (0 < m)%Z -> (0 < round_nearest_even m l)%Z.
Proof.
  intros Hm. destruct l as [|[]]; cbn [round_nearest_even]; try lia.
  destruct (Z.even m); lia.
Qed.

Lemma binary_round_aux_above_zero (m : positive) (e : Z) (l : location) :
  (-1074 <= e)%Z ->
  above_zero (binary_round_aux prec emax false (Z.pos m) e l) = true.
Proof.
  intros He. unfold binary_round_aux.
  destruct (shr_fexp_positive m e l He) as [Hm He'].
  destruct (shr_fexp prec emax (Z.pos m) e l) as [mrs' e'].
  cbn [fst snd] in Hm, He'.
  pose proof (round_nearest_even_positive _ (loc_of_shr_record mrs') Hm) as Hr.
  destruct (round_nearest_even (shr_m mrs') (loc_of_shr_record mrs'))
    as [|m'|m']; try lia.
  destruct (shr_fexp_positive m' e' loc_Exact He') as [Hm'' _].
  destruct (shr_fexp prec emax (Z.pos m') e' loc_Exact) as [mrs'' e''].
  cbn [fst] in Hm''.
  destruct (shr_m mrs'') as [|m''|m'']; try lia.
  destruct (e'' <=? emax - prec)%Z; reflexivity.
Qed.

Lemma binary_round_above_zero (m : positive) (e : Z) :
  (-1074 <= e)%Z -> above_zero (binary_round prec emax false m e) = true.
Proof.
  intros He. unfold binary_round.
  pose proof (shl_align_exponent m e
                (fexp prec emax (Z.pos (digits2_pos m) + e))) as Hsnd.
  destruct (shl_align m e (fexp prec emax (Z.pos (digits2_pos m) + e)))
    as [mz ez].
  cbn [snd] in Hsnd. apply binary_round_aux_above_zero.
  rewrite Hsnd, fexp_eq. lia.
Qed.

Lemma bounded_exponent (m : positive) (e : Z) :
  bounded prec emax m e = true ->
  (-1074 <= e)%Z /\ (Z.pos (digits2_pos m) <= 53)%Z
  /\ ((-1074 < e)%Z -> Z.pos (digits2_pos m) = 53%Z).
Proof.
  unfold bounded, canonical_mantissa. rewrite fexp_eq.
  intros H. apply andb_true_iff in H. destruct H as [H _].
  apply Z.eqb_eq in H. lia.
Qed.

(** Of two positive floats in canonical form, the one with the smaller
    exponent, or with the same exponent and the smaller mantissa, is the
    smaller number. *)
Lemma aligned_lt (ma mb : positive) (ea eb : Z) :
  bounded prec emax ma ea = true -> bounded prec emax mb eb = true ->
  (ea < eb)%Z \/ (ea = eb /\ Z.pos ma < Z.pos mb)%Z ->
  (Z.pos (fst (shl_align ma ea (Z.min eb ea)))
   < Z.pos (fst (shl_align mb eb (Z.min eb ea))))%Z.
Proof.
  intros Ha Hb Hlt.
  rewrite !shl_align_value by lia.
  destruct (bounded_exponent _ _ Ha) as (Hea & Hda & _).
  destruct (bounded_exponent _ _ Hb) as (_ & _ & Hdb).
  destruct Hlt as [Hlt|[-> Hlt]].
  - replace (Z.min eb ea) with ea by lia.
    replace (ea - ea)%Z with 0%Z by lia.
    pose proof (digits2_pos_bounds ma) as [_ Hma].
    pose proof (digits2_pos_bounds mb) as [Hmb _].
    rewrite Hdb in Hmb by lia.
    assert (H1 : (2 ^ Z.pos (digits2_pos ma) <= 2 ^ 53)%Z)
      by (apply Z.pow_le_mono_r; lia).
    assert (H2 : (2 ^ 1 <= 2 ^ (eb - ea))%Z)
      by (apply Z.pow_le_mono_r; lia).
    change (2 ^ 53)%Z with (2 ^ (53 - 1) * 2 ^ 1)%Z in H1.
    assert (H3 : (2 ^ (53 - 1) * 2 ^ 1 <= Z.pos mb * 2 ^ (eb - ea))%Z)
      by (apply Z.mul_le_mono_nonneg; lia).
    lia.
  - replace (Z.min eb eb) with eb by lia.
    replace (eb - eb)%Z with 0%Z by lia. lia.
Qed.

(** The difference of two floats, the smaller one taken from the larger
    one, is above zero: it is never rounded down to zero. *)
Lemma SFsub_above_zero (a b : spec_float) :
  valid_binary a = true -> valid_binary b = true ->
  SFltb a b = true -> above_zero (SFsub prec emax b a) = true.
Proof.
  intros Ha Hb. unfold SFltb.
  destruct a as [sa|sa| |sa ma ea], b as [sb|sb| |sb mb eb];
    try destruct sa; try destruct sb; cbn [SFcompare SFsub negb above_zero];
    try discriminate; try reflexivity; cbn [valid_binary] in Ha, Hb.
  - (* both below zero *)
    change (PosDef.Pos.compare_cont Eq ma mb) with (Pos.compare ma mb).
    intros Hlt.
    assert (H : (eb < ea)%Z \/ (eb = ea /\ Z.pos mb < Z.pos ma)%Z).
    { destruct (Z.compare_spec ea eb), (Pos.compare_spec ma mb);
        cbn [CompOpp] in Hlt; try discriminate; lia. }
    pose proof (aligned_lt mb ma eb ea Hb Ha H) as Hal.
    replace (Z.min ea eb) with (Z.min eb ea) in Hal by lia.
    cbn [cond_Zopp].
    destruct (bounded_exponent _ _ Ha) as (Hea & _).
    destruct (bounded_exponent _ _ Hb) as (Heb & _).
    destruct (_ - _)%Z as [|d|d] eqn:E; try lia.
    cbn [binary_normalize]. apply binary_round_above_zero. lia.
  - (* [a] below zero, [b] above *)
    intros _. cbn [cond_Zopp].
    destruct (bounded_exponent _ _ Ha) as (Hea & _).
    destruct (bounded_exponent _ _ Hb) as (Heb & _).
    destruct (_ - _)%Z as [|d|d] eqn:E; try lia.
    cbn [binary_normalize]. apply binary_round_above_zero. lia.
  - (* both above zero *)
    change (PosDef.Pos.compare_cont Eq ma mb) with (Pos.compare ma mb).
    intros Hlt.
    assert (H : (ea < eb)%Z \/ (ea = eb /\ Z.pos ma < Z.pos mb)%Z).
    { destruct (Z.compare_spec ea eb), (Pos.compare_spec ma mb);
        try discriminate; lia. }
    pose proof (aligned_lt ma mb ea eb Ha Hb H) as Hal.
    cbn [cond_Zopp].
    destruct (bounded_exponent _ _ Ha) as (Hea & _).
    destruct (bounded_exponent _ _ Hb) as (Heb & _).
    destruct (_ - _)%Z as [|d|d] eqn:E; try lia.
    cbn [binary_normalize]. apply binary_round_above_zero. lia.
Qed.

Lemma above_zero_ltb (x : float) :
  above_zero (Prim2SF x) = true -> 0 < x.
Proof.
  rewrite FloatAxioms.ltb_spec. unfold SFltb.
  change (Prim2SF 0) with (S754_zero false).
  destruct (Prim2SF x) as [s|s| |s m e]; try destruct s;
    cbn [above_zero SFcompare]; intros H; try discriminate; reflexivity.
Qed.

(** [x < y] gives [0 < y - x]: a difference the code computes between two
    distinct time stamps is not zero. *)
Lemma float_sub_pos (x y : float) : x < y -> 0 < y - x.
Proof.
  intros H. apply above_zero_ltb. rewrite FloatAxioms.sub_spec.
  apply SFsub_above_zero; try apply FloatAxioms.Prim2SF_valid.
  now rewrite <- FloatAxioms.ltb_spec.
Qed.


(** ** The running minimum *)


Lemma contains_mid_iff (mid : float) (seg : Segment) :
  contains_mid mid seg = true <-> seg_start seg <= mid <= seg_end seg.
Proof. unfold contains_mid. apply andb_true_iff. Qed.

(** ** The segment filter *)

Lemma filter_short_segments_app (l1 l2 : list Segment) (th : float) :
  filter_short_segments (l1 ++ l2) th
  = filter_short_segments l1 th ++ filter_short_segments l2 th.
Proof. unfold filter_short_segments. apply List.filter_app. Qed.

Lemma filter_short_segments_sublist (segments : list Segment) (th : float) :
  sublist (filter_short_segments segments th) segments.
Proof.
  unfold filter_short_segments.
  induction segments as [|s rest IH]; simpl.
  - constructor.
  - destruct (th <=? seg_end s - seg_start s).
    + now apply sublist_skip.
    + now apply sublist_cons.
Qed.

(** ** The word aligner *)

Lemma exact_match_skip (mid : float) (before rest : list Segment) :
  Forall (fun s => ~ (seg_start s <= mid <= seg_end s)) before ->
  exact_match mid (before ++ rest) = exact_match mid rest.
Proof.
  induction 1 as [|s before Hs _ IH]; simpl; [reflexivity|].
  destruct (contains_mid mid s) eqn:E; [|exact IH].
  apply contains_mid_iff in E. contradiction.
Qed.



Section second_loop.

Variables word_start word_end : float.

Let dist := seg_dist word_start word_end.




End second_loop.

(** C7.  The segment filter keeps a segment exactly when
    [end - start >= threshold] (default [0.3]), subtraction and comparison
    being those of the code: a segment is in the output iff it is in the
    input and passes the test; at every position of the input the segment
    is kept in place or dropped; the output is a subsequence of the input
    (same order, same records), and the empty input gives the empty
    output. *)
Theorem filter_short_segments_subsequence (segments : list Segment)
    (th : float) :
  (forall s, In s (filter_short_segments segments th)
             <-> In s segments /\ th <= seg_end s - seg_start s)
  /\ (forall before s after, segments = before ++ s :: after ->
        (th <= seg_end s - seg_start s ->
           filter_short_segments segments th
           = filter_short_segments before th
               ++ s :: filter_short_segments after th)
        /\ (~ th <= seg_end s - seg_start s ->
           filter_short_segments segments th
           = filter_short_segments before th
               ++ filter_short_segments after th))
  /\ sublist (filter_short_segments segments th) segments
  /\ filter_short_segments [] th = []
  /\ default_threshold = 0.3.
Proof.
  split; [|split; [|split; [|split]]].
  - intros s. unfold filter_short_segments.
    now rewrite List.filter_In.
  - intros before s after ->.
    rewrite filter_short_segments_app.
    unfold filter_short_segments at 2 5. simpl.
    destruct (th <=? seg_end s - seg_start s) eqn:E.
    + split; [reflexivity|]. intros Hn. contradiction.
    + split; [|reflexivity]. intros Hle. discriminate.
  - apply filter_short_segments_sublist.
  - reflexivity.
  - reflexivity.
Qed.

Lemma filter_short_segments_subsequence_witness :
  filter_short_segments
    [mkSegment 0 1 "S0"; mkSegment 2.0 2.3 "S1"; mkSegment 2.3 3 "S0"]
    default_threshold
  = filter_short_segments [mkSegment 0 1 "S0"] default_threshold
      ++ filter_short_segments [mkSegment 2.3 3 "S0"] default_threshold.
Proof.
  apply (proj1 (proj2 (filter_short_segments_subsequence
           [mkSegment 0 1 "S0"; mkSegment 2.0 2.3 "S1"; mkSegment 2.3 3 "S0"]
           default_threshold))
           [mkSegment 0 1 "S0"] (mkSegment 2.0 2.3 "S1")
           [mkSegment 2.3 3 "S0"] eq_refl).
  intros H. vm_compute in H. discriminate H.
Defined.



(** C3.  Exact match has priority and the first match wins: when a segment
    contains the midpoint [(word_start + word_end) / 2] of the word, as the
    code computes it, in its closed interval and no segment before it in
    the list does, the aligner returns its speaker, whatever the segments
    after it are and whatever the distances. *)
Theorem exact_match_first_wins (word_start word_end : float)
    (before after : list Segment) (seg : Segment) :
  seg_start seg <= (word_start + word_end) / 2 <= seg_end seg ->
  Forall (fun s => ~ (seg_start s <= (word_start + word_end) / 2
                      <= seg_end s)) before ->
  get_speaker_improved word_start word_end (before ++ seg :: after)
  = seg_speaker seg.
Proof.
  change ((word_start + word_end) / 2) with (word_mid word_start word_end).
  intros Hmid Hbefore. unfold get_speaker_improved.
  rewrite exact_match_skip by exact Hbefore. simpl.
  apply contains_mid_iff in Hmid. now rewrite Hmid.
Qed.

Lemma exact_match_first_wins_witness :
  get_speaker_improved 0.1 0.2
    [mkSegment 0 0.15 "A"; mkSegment 0.15 1 "B"; mkSegment 0 1 "C"] = "B".
Proof.
  apply (exact_match_first_wins 0.1 0.2 [mkSegment 0 0.15 "A"]
           [mkSegment 0 1 "C"] (mkSegment 0.15 1 "B")).
  - split; reflexivity.
  - constructor; [|constructor].
    intros [_ H]. vm_compute in H. discriminate H.
Defined.




(** C9.  The aligner of [video_transcriber.py] and the aligner of
    [transcript_gen_logic.py] return the same label on every input. *)
Theorem aligners_agree (word_start word_end : float)
    (segments : list Segment) :
  VideoTranscriber.get_speaker_for_word word_start word_end segments
  = TranscriptGenLogic.get_speaker_improved word_start word_end segments.
Proof.
  unfold VideoTranscriber.get_speaker_for_word, get_speaker_improved.
  assert (Hexact : forall mid,
            VideoTranscriber.exact_match mid segments
            = exact_match mid segments).
  { intros mid. induction segments as [|s rest IH]; simpl; [reflexivity|].
    unfold contains_mid. now rewrite IH. }
  rewrite Hexact. unfold word_mid.
  destruct (exact_match _ segments); [reflexivity|].
  (* the two second loops differ only in the spelling of [dist = 0] *)
  unfold closest_match.
  change (VideoTranscriber.closest_step word_start word_end)
    with (closest_step word_start word_end).
  reflexivity.
Qed.

(** ** The smoothing pass *)

Lemma smooth_step_in_range (word_speakers : list AssignedWord) (i : nat) :
  In i (seq 1 (length word_speakers - 1)) ->
  is_Some (word_speakers !! (i - 1)%nat) /\ is_Some (word_speakers !! i).
Proof.
  rewrite in_seq. intros [Hlo Hhi].
  split; apply lookup_lt_is_Some; lia.
Qed.

Lemma smooth_step_next (done : list AssignedWord) (prev curr : AssignedWord)
    (rest : list AssignedWord) :
  smooth_step (done ++ prev :: curr :: rest) (S (length done))
  = done ++ prev ::
      (if aw_start curr - aw_end prev <? gap_threshold
       then set_speaker curr (aw_speaker prev) else curr) :: rest.
Proof.
  assert (Hmid : done ++ prev :: curr :: rest
                 = (done ++ [prev]) ++ curr :: rest)
    by now rewrite <- app_assoc.
  assert (Hlen : length (done ++ [prev]) = S (length done))
    by (rewrite length_app; simpl; lia).
  unfold smooth_step.
  replace (S (length done) - 1)%nat with (length done) by lia.
  rewrite list_lookup_middle by reflexivity.
  rewrite Hmid at 1. rewrite list_lookup_middle by now rewrite Hlen.
  destruct (aw_start curr - aw_end prev <? gap_threshold);
    [|reflexivity].
  rewrite Hmid, insert_app_r_alt by (rewrite Hlen; lia).
  rewrite Hlen, Nat.sub_diag, <- app_assoc. reflexivity.
Qed.

Lemma smooth_loop (rest done : list AssignedWord) (prev : AssignedWord) :
  fold_left smooth_step (seq (S (length done)) (length rest))
    (done ++ prev :: rest)
  = done ++ prev :: cascade prev rest.
Proof.
  revert done prev.
  induction rest as [|curr rest IH]; intros done prev; [reflexivity|].
  cbn [length seq fold_left cascade]. rewrite smooth_step_next.
  set (curr' := if aw_start curr - aw_end prev <? gap_threshold
                then set_speaker curr (aw_speaker prev) else curr).
  rewrite (cons_middle prev done (curr' :: rest)), app_assoc.
  replace (S (length done)) with (length (done ++ [prev]))
    by (rewrite length_app; simpl; lia).
  rewrite IH. rewrite <- app_assoc. reflexivity.
Qed.

(** The loop over the indices computes the recursion over the list. *)
Lemma smooth_sweep (word_speakers : list AssignedWord) :
  smooth word_speakers = sweep word_speakers.
Proof.
  destruct word_speakers as [|first rest]; [reflexivity|].
  unfold smooth. cbn [length sweep].
  replace (S (length rest) - 1)%nat with (length rest) by lia.
  exact (smooth_loop rest [] first).
Qed.

Lemma cascade_length (rest : list AssignedWord) (prev : AssignedWord) :
  length (cascade prev rest) = length rest.
Proof.
  revert prev. induction rest as [|c rest IH]; intros prev; simpl;
    [reflexivity|]. now rewrite IH.
Qed.

Lemma cascade_times (rest : list AssignedWord) (prev : AssignedWord) :
  map aw_word (cascade prev rest) = map aw_word rest
  /\ map aw_start (cascade prev rest) = map aw_start rest
  /\ map aw_end (cascade prev rest) = map aw_end rest.
Proof.
  revert prev. induction rest as [|c rest IH]; intros prev; simpl; [auto|].
  destruct (IH (if aw_start c - aw_end prev <? gap_threshold
                then set_speaker c (aw_speaker prev) else c))
    as (-> & -> & ->).
  destruct (aw_start c - aw_end prev <? gap_threshold); auto.
Qed.

Lemma sweep_times (ws : list AssignedWord) :
  map aw_word (sweep ws) = map aw_word ws
  /\ map aw_start (sweep ws) = map aw_start ws
  /\ map aw_end (sweep ws) = map aw_end ws.
Proof.
  destruct ws as [|first rest]; simpl; [auto|].
  destruct (cascade_times rest first) as (-> & -> & ->). auto.
Qed.

(** The word at [i + 1] after the sweep, from the word at [i] after the
    sweep and the words of the input. *)
Lemma cascade_adjacent (rest : list AssignedWord) (first : AssignedWord)
    (i : nat) (prev curr : AssignedWord) :
  (first :: rest) !! i = Some prev ->
  (first :: rest) !! S i = Some curr ->
  exists prev',
    (first :: cascade first rest) !! i = Some prev'
    /\ (first :: cascade first rest) !! S i
       = Some (if aw_start curr - aw_end prev <? gap_threshold
               then set_speaker curr (aw_speaker prev') else curr).
Proof.
  revert first i prev curr.
  induction rest as [|c rest IH]; intros first i prev curr Hprev Hcurr.
  - destruct i; discriminate.
  - destruct i as [|i].
    + simpl in Hprev, Hcurr. injection Hprev as <-. injection Hcurr as <-.
      exists first. split; reflexivity.
    + cbn [cascade].
      set (c' := if aw_start c - aw_end first <? gap_threshold
                 then set_speaker c (aw_speaker first) else c).
      assert (Hend : aw_end c' = aw_end c).
      { unfold c'.
        destruct (aw_start c - aw_end first <? gap_threshold);
          reflexivity. }
      change ((first :: c' :: cascade c' rest) !! S i)
        with ((c' :: cascade c' rest) !! i).
      change ((first :: c' :: cascade c' rest) !! S (S i))
        with ((c' :: cascade c' rest) !! S i).
      change ((c :: rest) !! i = Some prev) in Hprev.
      change ((c :: rest) !! S i = Some curr) in Hcurr.
      destruct i as [|i].
      * simpl in Hprev. injection Hprev as <-.
        destruct (IH c' 0%nat c' curr eq_refl Hcurr) as (p & Hp & Hc).
        exists p. split; [exact Hp|]. rewrite Hc, Hend. reflexivity.
      * exact (IH c' (S i) prev curr Hprev Hcurr).
Qed.

Lemma sweep_adjacent (ws : list AssignedWord) (i : nat)
    (prev curr : AssignedWord) :
  ws !! i = Some prev ->
  ws !! S i = Some curr ->
  exists prev',
    sweep ws !! i = Some prev'
    /\ sweep ws !! S i
       = Some (if aw_start curr - aw_end prev <? gap_threshold
               then set_speaker curr (aw_speaker prev') else curr).
Proof.
  destruct ws as [|first rest]; [discriminate|].
  apply cascade_adjacent.
Qed.

Lemma cascade_idem (rest : list AssignedWord) (prev : AssignedWord) :
  cascade prev (cascade prev rest) = cascade prev rest.
Proof.
  revert prev. induction rest as [|c rest IH]; intros prev; [reflexivity|].
  cbn [cascade].
  destruct (aw_start c - aw_end prev <? gap_threshold) eqn:E.
  - cbn [set_speaker aw_start aw_end]. rewrite E.
    change (set_speaker (set_speaker c (aw_speaker prev)) (aw_speaker prev))
      with (set_speaker c (aw_speaker prev)).
    now rewrite IH.
  - rewrite E. now rewrite IH.
Qed.

Lemma sweep_idem (ws : list AssignedWord) : sweep (sweep ws) = sweep ws.
Proof.
  destruct ws as [|first rest]; [reflexivity|].
  cbn [sweep]. now rewrite cascade_idem.
Qed.

(** After the sweep a run of tight gaps carries one speaker. *)
Lemma sweep_run (ws : list AssignedWord) (i k : nat) (first : AssignedWord) :
  sweep ws !! i = Some first ->
  (forall j, (i <= j < i + k)%nat -> tight ws j) ->
  exists w, sweep ws !! (i + k)%nat = Some w
            /\ aw_speaker w = aw_speaker first.
Proof.
  intros Hfirst. induction k as [|k IH]; intros Hrun.
  - exists first. rewrite Nat.add_0_r. auto.
  - destruct IH as (w & Hw & Hsp); [intros j Hj; apply Hrun; lia|].
    destruct (Hrun (i + k)%nat) as (prev & curr & Hprev & Hcurr & Hgap);
      [lia|].
    destruct (sweep_adjacent ws _ _ _ Hprev Hcurr) as (prev' & Hp & Hc).
    rewrite Hw in Hp. injection Hp as <-.
    rewrite Hgap in Hc.
    rewrite Nat.add_succ_r.
    exists (set_speaker curr (aw_speaker w)). split; [exact Hc|exact Hsp].
Qed.

(** A word that no tight gap precedes is left as it is. *)
Lemma sweep_run_start (ws : list AssignedWord) (i : nat)
    (first : AssignedWord) :
  ws !! i = Some first ->
  (i = 0%nat \/ ~ tight ws (i - 1)) ->
  sweep ws !! i = Some first.
Proof.
  intros Hfirst Hstart.
  destruct i as [|i]; [destruct ws; exact Hfirst|].
  destruct Hstart as [Hi|Hloose]; [discriminate|].
  replace (S i - 1)%nat with i in Hloose by lia.
  destruct (ws !! i) as [prev|] eqn:Hprev.
  - destruct (sweep_adjacent ws i prev first Hprev Hfirst)
      as (prev' & _ & Hc).
    destruct (aw_start first - aw_end prev <? gap_threshold) eqn:E;
      [|exact Hc].
    exfalso. apply Hloose. exists prev, first.
    auto.
  - apply lookup_ge_None in Hprev. apply lookup_lt_Some in Hfirst. lia.
Qed.

(** C1.  Smoothing is one forward sweep with propagation.  The word at
    index 0 is never modified; for every [i >= 1], when
    [assigned[i].start - assigned[i-1].end < 0.25] the word at [i] gets the
    speaker that the word at [i-1] carries after its own update, and
    otherwise it is left as it is; so along a run of gaps below the
    threshold (negative gaps included) every word ends with the speaker
    that the first word of the run carries, which is its own label when no
    tight gap precedes it.  The gap is the difference the code computes and
    the test is its comparison with [0.25].  Three words with two gaps that
    pass the test, as [0.1] does, all end with the speaker of the first. *)
Theorem smoothing_forward_sweep (assigned : list AssignedWord) :
  gap_threshold = 0.25
  /\ length (smooth assigned) = length assigned
  /\ smooth assigned !! 0%nat = assigned !! 0%nat
  /\ (forall i prev curr,
        assigned !! i = Some prev -> assigned !! S i = Some curr ->
        exists prev',
          smooth assigned !! i = Some prev'
          /\ (aw_start curr - aw_end prev < gap_threshold ->
              smooth assigned !! S i
              = Some (set_speaker curr (aw_speaker prev')))
          /\ (~ aw_start curr - aw_end prev < gap_threshold ->
              smooth assigned !! S i = Some curr))
  /\ (forall i k first,
        smooth assigned !! i = Some first ->
        (forall j, (i <= j < i + k)%nat -> tight assigned j) ->
        exists w, smooth assigned !! (i + k)%nat = Some w
                  /\ aw_speaker w = aw_speaker first)
  /\ (forall i first,
        assigned !! i = Some first ->
        (i = 0%nat \/ ~ tight assigned (i - 1)) ->
        smooth assigned !! i = Some first)
  /\ (forall w1 w2 w3,
        aw_start w2 - aw_end w1 < gap_threshold ->
        aw_start w3 - aw_end w2 < gap_threshold ->
        map aw_speaker (smooth [w1; w2; w3])
        = [aw_speaker w1; aw_speaker w1; aw_speaker w1])
  /\ 0.1 < gap_threshold
  /\ map aw_speaker
       (smooth [mkAssigned "a" 0 0.5 "A"; mkAssigned "b" 0.6 1.0 "B";
                mkAssigned "c" 1.1 1.5 "C"])
     = ["A"; "A"; "A"].
Proof.
  rewrite !smooth_sweep.
  split; [reflexivity|].
  split; [destruct assigned; simpl; [|rewrite cascade_length]; reflexivity|].
  split; [destruct assigned; reflexivity|].
  split; [|split; [|split; [|split; [|split]]]].
  - intros i prev curr Hprev Hcurr.
    destruct (sweep_adjacent assigned i prev curr Hprev Hcurr)
      as (prev' & Hp & Hc).
    exists prev'. split; [exact Hp|].
    destruct (aw_start curr - aw_end prev <? gap_threshold) eqn:E.
    + split; [intros _; exact Hc|].
      intros Hn. contradiction.
    + split; [|intros _; exact Hc].
      intros Hlt. congruence.
  - apply sweep_run.
  - apply sweep_run_start.
  - intros w1 w2 w3 E12 E23. rewrite smooth_sweep.
    cbn [sweep cascade]. rewrite E12.
    cbn [set_speaker aw_end aw_speaker]. rewrite E23. reflexivity.
  - reflexivity.
  - reflexivity.
Qed.

Lemma smoothing_forward_sweep_witness :
  exists w,
    smooth [mkAssigned "so" 0 0.5 "A"; mkAssigned "what" 0.6 1 "B";
            mkAssigned "now" 0.9 1.5 "C"; mkAssigned "then" 2 3 "D"]
      !! (0 + 2)%nat = Some w
    /\ aw_speaker w = "A".
Proof.
  apply (proj1 (proj2 (proj2 (proj2 (proj2 (smoothing_forward_sweep
           [mkAssigned "so" 0 0.5 "A"; mkAssigned "what" 0.6 1 "B";
            mkAssigned "now" 0.9 1.5 "C"; mkAssigned "then" 2 3 "D"])))))
           0%nat 2%nat (mkAssigned "so" 0 0.5 "A") eq_refl).
  intros [|[|j]] Hj.
  - exists (mkAssigned "so" 0 0.5 "A"), (mkAssigned "what" 0.6 1 "B").
    repeat split.
  - exists (mkAssigned "what" 0.6 1 "B"), (mkAssigned "now" 0.9 1.5 "C").
    repeat split.
  - lia.
Defined.

(** C10.  Smoothing is idempotent: a second pass changes nothing.  After
    one pass every adjacent pair whose gap is below the threshold shares a
    speaker, and the pass changes no word text and no time stamp. *)
Theorem smoothing_idempotent (assigned : list AssignedWord) :
  smooth (smooth assigned) = smooth assigned
  /\ (forall i prev curr,
        smooth assigned !! i = Some prev ->
        smooth assigned !! S i = Some curr ->
        aw_start curr - aw_end prev < gap_threshold ->
        aw_speaker curr = aw_speaker prev)
  /\ map aw_word (smooth assigned) = map aw_word assigned
  /\ map aw_start (smooth assigned) = map aw_start assigned
  /\ map aw_end (smooth assigned) = map aw_end assigned.
Proof.
  rewrite !smooth_sweep. split; [apply sweep_idem|].
  split; [|apply sweep_times].
  intros i prev curr Hprev Hcurr Hgap.
  destruct (sweep_adjacent (sweep assigned) i prev curr Hprev Hcurr)
    as (prev' & Hp & Hc).
  rewrite sweep_idem in Hp, Hc. rewrite Hprev in Hp. injection Hp as <-.
  rewrite Hgap, Hcurr in Hc.
  injection Hc as Hc. rewrite Hc at 1. reflexivity.
Qed.

Lemma smoothing_idempotent_witness :
  aw_speaker (mkAssigned "what" 0.6 1 "A")
  = aw_speaker (mkAssigned "so" 0 0.5 "A").
Proof.
  apply (proj1 (proj2 (smoothing_idempotent
           [mkAssigned "so" 0 0.5 "A"; mkAssigned "what" 0.6 1 "B"]))
           0%nat (mkAssigned "so" 0 0.5 "A") (mkAssigned "what" 0.6 1 "A")
           eq_refl eq_refl).
  reflexivity.
Defined.

(** ** The utterance grouper *)

(** In every state of the grouping loop the sentence is empty exactly when
    no speaker is current, so a flush always has a speaker to write. *)
Lemma group_loop_sentence (ws : list AssignedWord) :
  current_sentence (group_loop ws) = [] <->
  current_speaker (group_loop ws) = None.
Proof.
  unfold group_loop.
  assert (Hinv : forall st,
            (current_sentence st = [] <-> current_speaker st = None) ->
            current_sentence (fold_left group_step ws st) = [] <->
            current_speaker (fold_left group_step ws st) = None).
  { induction ws as [|item rest IH]; intros st Hst; [exact Hst|].
    cbn [fold_left]. apply IH. unfold group_step.
    destruct (decide (Some (aw_speaker item) <> current_speaker st))
      as [_|Hsame]; cbn [current_sentence current_speaker].
    - split; discriminate.
    - destruct (current_speaker st) as [sp|]; [|exfalso; apply Hsame; discriminate].
      split; [|discriminate]. now destruct (current_sentence st). }
  apply Hinv. split; reflexivity.
Qed.

Lemma group_loop_from (ws : list AssignedWord) (done : list Utterance)
    (sp : string) (buf : list string) :
  buf <> [] ->
  finish (fold_left group_step ws
            {| final_transcript := done; current_speaker := Some sp;
               current_sentence := buf |})
  = done ++ group_from sp buf ws.
Proof.
  revert done sp buf.
  induction ws as [|item rest IH]; intros done sp buf Hbuf.
  - destruct buf; [contradiction|reflexivity].
  - cbn [fold_left group_from]. unfold group_step.
    cbn [current_speaker current_sentence final_transcript].
    destruct (decide (aw_speaker item = sp)) as [->|Hne].
    + destruct (decide (Some sp <> Some sp)) as [Habs|_]; [contradiction|].
      apply IH. now destruct buf.
    + destruct (decide (Some (aw_speaker item) <> Some sp)) as [_|Heq];
        [|exfalso; apply Heq; congruence].
      rewrite IH by discriminate. unfold flush.
      cbn [current_speaker current_sentence final_transcript].
      now rewrite <- app_assoc.
Qed.

Lemma group_cons (item : AssignedWord) (rest : list AssignedWord) :
  group (item :: rest) = group_from (aw_speaker item) [aw_word item] rest.
Proof.
  unfold group, group_loop. cbn [fold_left].
  change (group_step group_init item)
    with {| final_transcript := []; current_speaker := Some (aw_speaker item);
            current_sentence := [aw_word item] |}.
  now rewrite group_loop_from.
Qed.

Lemma group_from_runs (ws block : list AssignedWord) (sp : string) :
  group_from sp (map aw_word block) ws
  = map utterance_of_run (runs_from sp block ws).
Proof.
  revert sp block.
  induction ws as [|item rest IH]; intros sp block; [reflexivity|].
  cbn [group_from runs_from].
  destruct (decide (aw_speaker item = sp)).
  - rewrite <- IH, map_app. reflexivity.
  - cbn [map]. rewrite <- IH. reflexivity.
Qed.

(** The grouper returns the utterances of the maximal runs. *)
Lemma group_runs (ws : list AssignedWord) :
  group ws = map utterance_of_run (runs ws).
Proof.
  destruct ws as [|item rest]; [reflexivity|].
  rewrite group_cons. exact (group_from_runs rest [item] (aw_speaker item)).
Qed.

Lemma runs_from_head (ws block : list AssignedWord) (sp : string) :
  exists block' tl, runs_from sp block ws = (sp, block') :: tl.
Proof.
  revert block. induction ws as [|item rest IH]; intros block; simpl; eauto.
  destruct (decide (aw_speaker item = sp)); eauto.
Qed.

Lemma runs_from_concat (ws block : list AssignedWord) (sp : string) :
  concat (map snd (runs_from sp block ws)) = block ++ ws.
Proof.
  revert sp block.
  induction ws as [|item rest IH]; intros sp block; simpl.
  - reflexivity.
  - destruct (decide (aw_speaker item = sp)); simpl; rewrite IH.
    + now rewrite <- app_assoc.
    + reflexivity.
Qed.

Lemma runs_from_is_run (ws block : list AssignedWord) (sp : string) :
  block <> [] -> Forall (fun w => aw_speaker w = sp) block ->
  Forall is_run (runs_from sp block ws).
Proof.
  revert sp block.
  induction ws as [|item rest IH]; intros sp block Hne Hall; simpl.
  - constructor; [split; assumption|constructor].
  - destruct (decide (aw_speaker item = sp)) as [Heq|Hneq].
    + apply IH; [now destruct block|].
      apply Forall_app. split; [exact Hall|]. constructor; auto.
    + constructor; [split; assumption|].
      apply IH; [discriminate|]. constructor; auto.
Qed.

Lemma runs_from_alternating (ws block : list AssignedWord) (sp : string) :
  alternating (map fst (runs_from sp block ws)).
Proof.
  revert sp block.
  induction ws as [|item rest IH]; intros sp block; simpl; [auto|].
  destruct (decide (aw_speaker item = sp)) as [Heq|Hneq]; [apply IH|].
  destruct (runs_from_head rest [item] (aw_speaker item))
    as (block' & tl & Hhd).
  specialize (IH (aw_speaker item) [item]). rewrite Hhd in *.
  simpl. split; [congruence|exact IH].
Qed.

Lemma runs_decomposition (ws : list AssignedWord) :
  concat (map snd (runs ws)) = ws
  /\ Forall is_run (runs ws)
  /\ alternating (map fst (runs ws)).
Proof.
  destruct ws as [|item rest]; simpl; [auto|].
  split; [apply (runs_from_concat rest [item])|].
  split; [|apply runs_from_alternating].
  apply runs_from_is_run; [discriminate|]. constructor; auto.
Qed.

Lemma runs_from_block (b rest block : list AssignedWord) (sp : string) :
  Forall (fun w => aw_speaker w = sp) b ->
  runs_from sp block (b ++ rest) = runs_from sp (block ++ b) rest.
Proof.
  intros Hall. revert block.
  induction Hall as [|w b Hw _ IH]; intros block; simpl.
  - now rewrite app_nil_r.
  - destruct (decide (aw_speaker w = sp)); [|contradiction].
    rewrite IH, <- app_assoc. reflexivity.
Qed.

(** A list of runs whose neighbours differ in speaker is the list of the
    maximal runs of its words. *)
Lemma runs_from_unique (rs : list (string * list AssignedWord))
    (block : list AssignedWord) (sp : string) :
  Forall is_run rs -> alternating (sp :: map fst rs) ->
  runs_from sp block (concat (map snd rs)) = (sp, block) :: rs.
Proof.
  intros Hruns. revert sp block.
  induction Hruns as [|[sp' b] rs [Hne Hall] _ IH]; intros sp block Halt;
    [reflexivity|].
  cbn [map fst snd concat] in *.
  destruct b as [|w b]; [contradiction|].
  destruct Halt as [Hsp Halt].
  inversion Hall as [|? ? Hw Hb]; subst.
  cbn [app runs_from].
  destruct (decide (aw_speaker w = sp)) as [Heq|_]; [congruence|].
  rewrite runs_from_block by exact Hb.
  rewrite IH by exact Halt. reflexivity.
Qed.

Lemma runs_unique (rs : list (string * list AssignedWord)) :
  Forall is_run rs -> alternating (map fst rs) ->
  runs (concat (map snd rs)) = rs.
Proof.
  intros Hruns Halt.
  destruct rs as [|[sp b] rs]; [reflexivity|].
  inversion Hruns as [|? ? [Hne Hall] Hrest]; subst.
  cbn [map fst snd concat] in *.
  destruct b as [|w b]; [contradiction|].
  inversion Hall as [|? ? Hw Hb]; subst.
  cbn [app runs]. rewrite runs_from_block by exact Hb.
  now rewrite runs_from_unique.
Qed.

(** ** Joining and splitting *)

Lemma split_space_word (w : string) :
  no_space w = true -> split_space w = [w].
Proof.
  induction w as [|c w IH]; simpl; [reflexivity|].
  destruct (Ascii.eqb c " "); simpl; [discriminate|].
  intros H. now rewrite IH.
Qed.

Lemma split_space_append (w rest : string) :
  no_space w = true ->
  split_space (w +:+ " " +:+ rest) = w :: split_space rest.
Proof.
  induction w as [|c w IH]; simpl; [reflexivity|].
  destruct (Ascii.eqb c " "); simpl; [discriminate|].
  intros H. now rewrite IH.
Qed.

(** Splitting a joined sentence gives its words back, when no word holds a
    space and the sentence has a word. *)
Lemma split_space_join (words : list string) :
  words <> [] -> Forall (fun w => no_space w = true) words ->
  split_space (join words) = words.
Proof.
  intros Hne Hall. induction Hall as [|w rest Hw Hrest IH]; [contradiction|].
  destruct rest as [|w' rest].
  - simpl. now apply split_space_word.
  - change (join (w :: w' :: rest)) with (w +:+ " " +:+ join (w' :: rest)).
    rewrite split_space_append by exact Hw.
    now rewrite IH.
Qed.

Lemma words_of_runs (rs : list (string * list AssignedWord)) :
  Forall is_run rs ->
  Forall (fun w => no_space (aw_word w) = true) (concat (map snd rs)) ->
  words_of (map utterance_of_run rs) = map aw_word (concat (map snd rs)).
Proof.
  unfold words_of.
  induction 1 as [|[sp b] rs [Hne _] _ IH]; [reflexivity|].
  cbn [map concat snd fst utterance_of_run utt_text].
  rewrite Forall_app. intros [Hb Hrs].
  rewrite map_app, IH by exact Hrs. f_equal.
  apply split_space_join.
  - now destruct b.
  - now apply Forall_map.
Qed.

Lemma reexpression_runs (us : list Utterance)
    (blocks : list (list AssignedWord)) :
  Forall2 reexpresses us blocks ->
  exists rs, map snd rs = blocks
             /\ map fst rs = map utt_speaker us
             /\ Forall is_run rs
             /\ map utterance_of_run rs = us.
Proof.
  induction 1 as [|u b us blocks (Hne & Htext & Hsp) _ (rs & <- & Hfst & Hruns & <-)].
  - exists []. repeat split; constructor.
  - exists ((utt_speaker u, b) :: rs). cbn [map fst snd].
    split; [reflexivity|]. split; [now rewrite Hfst|].
    split; [constructor; [split; assumption|exact Hruns]|].
    unfold utterance_of_run at 1. cbn [fst snd]. rewrite <- Htext.
    now destruct u.
Qed.

(** C6 (as it holds).  Every utterance is the join of a maximal run of
    consecutive words with one speaker: the runs put end to end are the
    input, each run is non-empty and carries one speaker, neighbouring runs
    differ in speaker, and the output is the list of their utterances.  When
    no word text holds a space, splitting each text at single spaces and
    putting the pieces end to end gives the word texts of the input, in
    order. *)
Theorem grouping_lossless (assigned : list AssignedWord) :
  (exists rs,
      concat (map snd rs) = assigned
      /\ Forall is_run rs
      /\ alternating (map fst rs)
      /\ group assigned = map utterance_of_run rs)
  /\ (Forall (fun w => no_space (aw_word w) = true) assigned ->
      words_of (group assigned) = map aw_word assigned).
Proof.
  destruct (runs_decomposition assigned) as (Hcat & Hruns & Halt).
  split.
  - exists (runs assigned). auto using group_runs.
  - intros Hclean.
    rewrite group_runs, words_of_runs by (rewrite ?Hcat; assumption).
    now rewrite Hcat.
Qed.

Lemma grouping_lossless_witness :
  words_of (group [mkAssigned "hi" 0 0.5 "S0"; mkAssigned "there" 0.52 0.9 "S0";
                   mkAssigned "yes" 1.5 1.8 "S1"])
  = ["hi"; "there"; "yes"].
Proof.
  apply (proj2 (grouping_lossless
           [mkAssigned "hi" 0 0.5 "S0"; mkAssigned "there" 0.52 0.9 "S0";
            mkAssigned "yes" 1.5 1.8 "S1"])).
  repeat constructor.
Defined.

(** C6 as stated fails on a word text that holds a space: the split cuts it
    in two. *)
Lemma grouping_lossless_counterexample :
  words_of (group [mkAssigned "New York" 0 1 "S0"]) = ["New"; "York"]
  /\ map aw_word [mkAssigned "New York" 0 1 "S0"] = ["New York"]
  /\ words_of (group [mkAssigned "New York" 0 1 "S0"])
     <> map aw_word [mkAssigned "New York" 0 1 "S0"].
Proof. repeat split. vm_compute. discriminate. Qed.

(** C8.  In the output of the grouper neighbouring utterances differ in
    speaker; and grouping is idempotent: whenever the output is written
    back as assigned words, a non-empty block of words per utterance whose
    join is the text and which all carry the speaker of the utterance, the
    grouper returns the same utterances on these words. *)
Theorem grouping_idempotent (assigned : list AssignedWord) :
  alternating (map utt_speaker (group assigned))
  /\ forall blocks : list (list AssignedWord),
       Forall2 reexpresses (group assigned) blocks ->
       group (concat blocks) = group assigned.
Proof.
  destruct (runs_decomposition assigned) as (_ & _ & Halt).
  assert (Hsp : map utt_speaker (group assigned) = map fst (runs assigned)).
  { rewrite group_runs, map_map. reflexivity. }
  split; [now rewrite Hsp|].
  intros blocks Hre.
  destruct (reexpression_runs _ _ Hre) as (rs & <- & Hfst & Hruns & Hus).
  rewrite group_runs at 1. rewrite runs_unique; [exact Hus|exact Hruns|].
  now rewrite Hfst, Hsp.
Qed.

Lemma grouping_idempotent_witness :
  group (concat
           [[mkAssigned "hi" 0 0 "S0"; mkAssigned "there" 0 0 "S0"];
            [mkAssigned "yes" 0 0 "S1"]])
  = group [mkAssigned "hi" 0 0.5 "S0"; mkAssigned "there" 0.52 0.9 "S0";
           mkAssigned "yes" 1.5 1.8 "S1"].
Proof.
  apply (proj2 (grouping_idempotent
                  [mkAssigned "hi" 0 0.5 "S0"; mkAssigned "there" 0.52 0.9 "S0";
                   mkAssigned "yes" 1.5 1.8 "S1"])).
  repeat constructor; discriminate.
Defined.

(** ** The word loop *)

(** The word loop of [video_transcriber.py] takes no alias and no default:
    without ['start'] it raises. *)
Lemma video_transcriber_missing_start (segments : list Segment)
    (word_data : word_record) (w : json) :
  word_data !! "word" = Some w -> word_data !! "start" = None ->
  VideoTranscriber.assign_word segments word_data = raise (KeyError "start").
Proof.
  intros Hw Hs. unfold VideoTranscriber.assign_word, dict_index.
  now rewrite Hw, Hs.
Qed.

(** C5 (as it holds).  A word record without ['start'] is read through
    ['start_offset'], and without that one too its start is [0]; the same
    for ['end'] with ['end_offset'].  No error is raised for a missing
    timing field: with floats as the values read and a ['word'], the word
    loop appends its entry. *)
Theorem missing_timing_defaults (speaker_segments : list Segment)
    (word_data : word_record) :
  (forall v, word_data !! "start" = Some v -> w_start word_data = v)
  /\ (forall v, word_data !! "start" = None ->
        word_data !! "start_offset" = Some v -> w_start word_data = v)
  /\ (word_data !! "start" = None -> word_data !! "start_offset" = None ->
      w_start word_data = JNum 0)
  /\ (forall v, word_data !! "end" = Some v -> w_end word_data = v)
  /\ (forall v, word_data !! "end" = None ->
        word_data !! "end_offset" = Some v -> w_end word_data = v)
  /\ (word_data !! "end" = None -> word_data !! "end_offset" = None ->
      w_end word_data = JNum 0)
  /\ (forall word_start word_end w,
        w_start word_data = JNum word_start ->
        w_end word_data = JNum word_end ->
        word_data !! "word" = Some w ->
        assign_word speaker_segments word_data
        = ret (w, word_start, word_end,
               get_speaker_improved word_start word_end speaker_segments)).
Proof.
  split; [|split; [|split; [|split; [|split; [|split]]]]].
  - intros v Hv. unfold w_start, dict_get. now rewrite Hv.
  - intros v Hn Hv. unfold w_start, dict_get. now rewrite Hn, Hv.
  - intros Hn Hn'. unfold w_start, dict_get. now rewrite Hn, Hn'.
  - intros v Hv. unfold w_end, dict_get. now rewrite Hv.
  - intros v Hn Hv. unfold w_end, dict_get. now rewrite Hn, Hv.
  - intros Hn Hn'. unfold w_end, dict_get. now rewrite Hn, Hn'.
  - intros ws we w Hs He Hw. unfold assign_word.
    rewrite Hs, He. unfold dict_index. rewrite Hw. reflexivity.
Qed.

Lemma missing_timing_defaults_witness :
  assign_word [mkSegment 0 1 "S0"]
    (<["end_offset" := JNum 0.5]> {["word" := JStr "hi"]})
  = ret (JStr "hi", 0, 0.5, "S0").
Proof.
  apply (proj2 (proj2 (proj2 (proj2 (proj2 (proj2
           (missing_timing_defaults [mkSegment 0 1 "S0"]
              (<["end_offset" := JNum 0.5]> {["word" := JStr "hi"]})))))))
           0 0.5 (JStr "hi")); reflexivity.
Defined.

(** C5 as stated fails: a word record with no timing field at all raises
    nothing; its start and end are [0] and the transcript is written. *)
Lemma missing_timing_counterexample :
  lacks_timing {["word" := JStr "hi"]}
  /\ assign_word [] {["word" := JStr "hi"]} = ret (JStr "hi", 0, 0, "Unknown")
  /\ generate_transcript (Some [{["word" := JStr "hi"]}]) []
     = ret [{| utt_speaker := "Unknown"; utt_text := "hi" |}].
Proof. split; [left; split; reflexivity|split; reflexivity]. Qed.

(** ** Scenarios *)

(** Two words inside one segment: one utterance, one line. *)
Example scenario_one_segment :
  generate_transcript
    (Some [list_to_map [("word", JStr "hi"); ("start", JNum 0.0);
                        ("end", JNum 0.5)];
           list_to_map [("word", JStr "there"); ("start", JNum 0.52);
                        ("end", JNum 0.9)]])
    [mkSegment 0.0 1.0 "S0"]
  = ret [{| utt_speaker := "S0"; utt_text := "hi there" |}]
  /\ format_line {| utt_speaker := "S0"; utt_text := "hi there" |}
     = "[S0]: hi there" +:+ String (ascii_of_nat 10) "".
Proof. split; reflexivity. Qed.

(** No segment: both words are ["Unknown"] and form one utterance. *)
Example scenario_no_segment :
  generate_transcript
    (Some [list_to_map [("word", JStr "word1"); ("start", JNum 0.0);
                        ("end", JNum 0.5)];
           list_to_map [("word", JStr "word2"); ("start", JNum 1.0);
                        ("end", JNum 1.5)]])
    []
  = ret [{| utt_speaker := "Unknown"; utt_text := "word1 word2" |}].
Proof. reflexivity. Qed.

(** No word, or no ['timestamps'] key: the transcript is empty. *)
Example scenario_no_word (speaker_segments : list Segment) :
  generate_transcript (Some []) speaker_segments = ret []
  /\ generate_transcript None speaker_segments = ret [].
Proof. split; reflexivity. Qed.

(** The alias is read when the plain key is missing. *)
Example scenario_alias :
  assign_word [mkSegment 0 1 "S0"; mkSegment 1 2 "S1"]
    (list_to_map [("word", JStr "ok"); ("start_offset", JNum 1.2);
                  ("end_offset", JNum 1.4)])
  = ret (JStr "ok", 1.2, 1.4, "S1").
Proof. reflexivity. Qed.

(** Rounding decides at the thresholds: the segment [2.0, 2.3] is dropped
    and [0.05, 0.35] is kept; a word that starts at [0.35] after one that
    ends at [0.1] is relabelled, and one that starts at [0.3] after one
    that ends at [0.05] is not; the midpoint of the word [0.1, 0.2] is
    above [0.15]. *)
Example scenario_rounding :
  filter_short_segments [mkSegment 2.0 2.3 "S1"; mkSegment 0.05 0.35 "S2"]
    default_threshold
  = [mkSegment 0.05 0.35 "S2"]
  /\ map aw_speaker
       (smooth [mkAssigned "a" 0 0.1 "A"; mkAssigned "b" 0.35 0.6 "B"])
     = ["A"; "A"]
  /\ map aw_speaker
       (smooth [mkAssigned "a" 0 0.05 "A"; mkAssigned "b" 0.3 0.6 "B"])
     = ["A"; "B"]
  /\ word_mid 0.1 0.2 = 0.15000000000000002
  /\ get_speaker_improved 0.1 0.2 [mkSegment 0.2 1 "B"; mkSegment 0 0.15 "A"]
     = "B".
Proof. repeat split; reflexivity. Qed.


(** * Further properties *)

(** ** Filtering twice *)

Lemma filter_short_segments_all (segments : list Segment) (th : float) :
  Forall (fun s => th <= seg_end s - seg_start s) segments ->
  filter_short_segments segments th = segments.
Proof.
  unfold filter_short_segments.
  induction 1 as [|s rest Hs _ IH]; simpl; [reflexivity|].
  now rewrite Hs, IH.
Qed.

Lemma filter_short_segments_long (segments : list Segment) (th : float) :
  Forall (fun s => th <= seg_end s - seg_start s)
         (filter_short_segments segments th).
Proof.
  apply List.Forall_forall. intros s Hin.
  apply List.filter_In in Hin. now destruct Hin as [_ Hle].
Qed.

(** X1.  Filtering with two thresholds, in either order, keeps what the
    larger threshold keeps; so the filter is idempotent, and filtering again
    with a smaller threshold removes nothing. *)
Theorem filter_short_segments_twice (segments : list Segment) (a b : float) :
  a <= b ->
  filter_short_segments (filter_short_segments segments a) b
  = filter_short_segments segments b
  /\ filter_short_segments (filter_short_segments segments b) a
     = filter_short_segments segments b
  /\ filter_short_segments (filter_short_segments segments b) b
     = filter_short_segments segments b.
Proof.
  intros Hab. split; [|split].
  - unfold filter_short_segments.
    induction segments as [|s rest IH]; simpl; [reflexivity|].
    destruct (a <=? seg_end s - seg_start s) eqn:Ea; simpl.
    + now rewrite IH.
    + destruct (b <=? seg_end s - seg_start s) eqn:Eb; [|exact IH].
      pose proof (float_le_trans _ _ _ Hab Eb). congruence.
  - apply filter_short_segments_all.
    eapply Forall_impl; [apply filter_short_segments_long|].
    intros s Hs. exact (float_le_trans _ _ _ Hab Hs).
  - apply filter_short_segments_all, filter_short_segments_long.
Qed.

Lemma filter_short_segments_twice_witness :
  filter_short_segments
    (filter_short_segments
       [mkSegment 0 1 "S0"; mkSegment 1 1.2 "S1"; mkSegment 2 2.4 "S0"] 0.3)
    0.5
  = filter_short_segments
      [mkSegment 0 1 "S0"; mkSegment 1 1.2 "S1"; mkSegment 2 2.4 "S0"] 0.5.
Proof.
  apply (filter_short_segments_twice
           [mkSegment 0 1 "S0"; mkSegment 1 1.2 "S1"; mkSegment 2 2.4 "S0"]
           0.3 0.5).
  reflexivity.
Defined.

(** ** The diarization loop of video_transcriber.py *)

Lemma keep_turn_loop (tracks : list VideoTranscriber.Track)
    (kept : list Segment) :
  Forall (fun t => is_number (VideoTranscriber.turn_end t
                              - VideoTranscriber.turn_start t)) tracks ->
  fold_left VideoTranscriber.keep_turn tracks kept
  = kept ++ filter_short_segments (map segment_of_track tracks)
              default_threshold.
Proof.
  intros Hnum. revert kept.
  induction Hnum as [|t rest Ht _ IH]; intros kept; simpl.
  - now rewrite app_nil_r.
  - rewrite IH. unfold VideoTranscriber.keep_turn.
    rewrite (float_lt_not_le _ 0.3 Ht eq_refl).
    unfold filter_short_segments. simpl.
    change 0.3 with default_threshold.
    destruct (default_threshold <=? _); simpl; [|reflexivity].
    now rewrite <- app_assoc.
Qed.

(** X2.  On turns whose computed duration is a number (no NaN), the
    diarization loop of [video_transcriber.py] keeps exactly the turns that
    [filter_short_segments] keeps with its default threshold, in the same
    order; so the filter of [transcript_gen_logic.py] removes nothing from
    the segments the script saved. *)
Theorem diarization_loop_is_filter (tracks : list VideoTranscriber.Track) :
  Forall (fun t => is_number (VideoTranscriber.turn_end t
                              - VideoTranscriber.turn_start t)) tracks ->
  VideoTranscriber.speaker_segments_of tracks
  = filter_short_segments (map segment_of_track tracks) default_threshold
  /\ filter_short_segments (VideoTranscriber.speaker_segments_of tracks)
       default_threshold
     = VideoTranscriber.speaker_segments_of tracks.
Proof.
  intros Hnum.
  assert (H : VideoTranscriber.speaker_segments_of tracks
              = filter_short_segments (map segment_of_track tracks)
                  default_threshold)
    by exact (keep_turn_loop tracks [] Hnum).
  split; [exact H|]. rewrite H.
  apply filter_short_segments_all, filter_short_segments_long.
Qed.

Lemma diarization_loop_is_filter_witness :
  VideoTranscriber.speaker_segments_of
    [VideoTranscriber.mkTrack 0 1 "S0"; VideoTranscriber.mkTrack 2.0 2.3 "S1"]
  = filter_short_segments
      (map segment_of_track
         [VideoTranscriber.mkTrack 0 1 "S0";
          VideoTranscriber.mkTrack 2.0 2.3 "S1"])
      default_threshold.
Proof.
  apply (proj1 (diarization_loop_is_filter
           [VideoTranscriber.mkTrack 0 1 "S0";
            VideoTranscriber.mkTrack 2.0 2.3 "S1"]
           ltac:(repeat constructor))).
Defined.

(** The condition is needed: a duration that is not a number (here
    [inf - inf]) fails both tests, so the loop keeps the turn and the
    filter drops it. *)
Example diarization_loop_nan :
  VideoTranscriber.speaker_segments_of
    [VideoTranscriber.mkTrack infinity infinity "S0"]
  = [mkSegment infinity infinity "S0"]
  /\ filter_short_segments [mkSegment infinity infinity "S0"] default_threshold
     = [].
Proof. split; reflexivity. Qed.

(** ** The gap distance *)

(** X3.  The gap distance is never negative; it is zero exactly when the
    word neither ends before the segment starts nor starts after it ends;
    and a segment that holds a point of the word's interval is at distance
    zero from it: so is a segment that contains the midpoint, when the
    midpoint the code computes lies between the start and the end of the
    word, and the second loop then agrees with the first one on what is
    nearest. *)
Theorem seg_dist_zero_on_overlap (word_start word_end : float)
    (seg : Segment) :
  0 <= seg_dist word_start word_end seg
  /\ (seg_dist word_start word_end seg = 0
      <-> ~ word_end < seg_start seg /\ ~ seg_end seg < word_start)
  /\ (forall p, word_start <= p <= word_end ->
        seg_start seg <= p <= seg_end seg ->
        seg_dist word_start word_end seg = 0)
  /\ (word_start <= (word_start + word_end) / 2 <= word_end ->
      seg_start seg <= (word_start + word_end) / 2 <= seg_end seg ->
      seg_dist word_start word_end seg = 0).
Proof.
  assert (Hpoint : forall p, word_start <= p <= word_end ->
            seg_start seg <= p <= seg_end seg ->
            seg_dist word_start word_end seg = 0).
  { intros p [Hws Hwe] [Hss Hse]. unfold seg_dist.
    destruct (word_end <? seg_start seg) eqn:E1.
    - pose proof (float_le_lt_trans _ _ _ Hwe E1) as H1.
      pose proof (float_le_lt_trans _ _ _ Hss H1) as H2.
      rewrite float_lt_irrefl in H2. discriminate.
    - destruct (seg_end seg <? word_start) eqn:E2; [|reflexivity].
      pose proof (float_le_lt_trans _ _ _ Hse E2) as H1.
      pose proof (float_le_lt_trans _ _ _ Hws H1) as H2.
      rewrite float_lt_irrefl in H2. discriminate. }
  split; [|split; [|split]].
  - unfold seg_dist.
    destruct (word_end <? seg_start seg) eqn:E1;
      [now apply float_lt_le, float_sub_pos|].
    destruct (seg_end seg <? word_start) eqn:E2;
      [now apply float_lt_le, float_sub_pos|reflexivity].
  - unfold seg_dist.
    destruct (word_end <? seg_start seg) eqn:E1.
    + split; [|intros [H _]; contradiction].
      intros H0. pose proof (float_sub_pos _ _ E1) as Hpos.
      rewrite H0, float_lt_irrefl in Hpos. discriminate.
    + destruct (seg_end seg <? word_start) eqn:E2.
      * split; [|intros [_ H]; contradiction].
        intros H0. pose proof (float_sub_pos _ _ E2) as Hpos.
        rewrite H0, float_lt_irrefl in Hpos. discriminate.
      * split; [intros _; split; discriminate|reflexivity].
  - exact Hpoint.
  - apply Hpoint.
Qed.

Lemma seg_dist_zero_on_overlap_witness :
  seg_dist 0.4 0.6 (mkSegment 0.45 2 "S0") = 0.
Proof.
  apply (proj2 (proj2 (proj2 (seg_dist_zero_on_overlap 0.4 0.6
                                (mkSegment 0.45 2 "S0"))))).
  - split; reflexivity.
  - split; reflexivity.
Defined.

(** The condition on the midpoint is needed: the sum of two time stamps
    near the largest float overflows, the midpoint is then [inf], and a
    segment that contains it can lie at a distance from the word. *)
Example seg_dist_overflow :
  (1.7e308 + 1.7e308) / 2 = infinity
  /\ contains_mid (word_mid 1.7e308 1.7e308) (mkSegment 1.75e308 infinity "S0")
     = true
  /\ seg_dist 1.7e308 1.7e308 (mkSegment 1.75e308 infinity "S0")
     = 1.75e308 - 1.7e308
  /\ 0 < 1.75e308 - 1.7e308.
Proof. repeat split; reflexivity. Qed.


(** ** More on the utterance grouper *)

Lemma group_from_length (ws : list AssignedWord) (sp : string)
    (buf : list string) :
  length (group_from sp buf ws) = S (changes sp ws).
Proof.
  revert sp buf. induction ws as [|w rest IH]; intros sp buf; [reflexivity|].
  cbn [group_from changes].
  destruct (decide (aw_speaker w = sp)) as [Heq|Hne]; cbn [length];
    rewrite IH; [rewrite Heq|]; reflexivity.
Qed.

Lemma changes_bound (ws : list AssignedWord) (sp : string) :
  (changes sp ws <= length ws)%nat
  /\ (changes sp ws = length ws <-> alternating (sp :: map aw_speaker ws)).
Proof.
  revert sp. induction ws as [|w rest IH]; intros sp.
  - simpl. split; [lia|]. split; auto.
  - destruct (IH (aw_speaker w)) as [Hle Hiff].
    cbn [changes length map].
    change (alternating (sp :: aw_speaker w :: map aw_speaker rest))
      with (sp <> aw_speaker w
            /\ alternating (aw_speaker w :: map aw_speaker rest)).
    destruct (decide (aw_speaker w = sp)) as [Heq|Hne].
    + split; [lia|]. split; [lia|]. intros [Habs _]. congruence.
    + split; [lia|]. rewrite <- Hiff. split.
      * intros H. split; [congruence|lia].
      * intros [_ H]. lia.
Qed.

(** X4.  The grouper returns no utterance exactly for no word, never more
    utterances than words, and as many utterances as words exactly when
    every two neighbouring words differ in speaker. *)
Theorem group_length (assigned : list AssignedWord) :
  (group assigned = [] <-> assigned = [])
  /\ (length (group assigned) <= length assigned)%nat
  /\ (length (group assigned) = length assigned
      <-> alternating (map aw_speaker assigned)).
Proof.
  destruct assigned as [|w rest].
  - simpl. repeat split; auto.
  - rewrite group_cons.
    pose proof (group_from_length rest (aw_speaker w) [aw_word w]) as Hlen.
    destruct (changes_bound rest (aw_speaker w)) as [Hle Hiff].
    split; [|split].
    + split; [|discriminate].
      intros H. rewrite H in Hlen. discriminate.
    + rewrite Hlen. simpl. lia.
    + rewrite Hlen. cbn [length map]. rewrite <- Hiff. lia.
Qed.

Lemma group_from_speakers (ws : list AssignedWord) (sp : string)
    (buf : list string) :
  map utt_speaker (group_from sp buf ws) = squeeze (sp :: map aw_speaker ws).
Proof.
  revert sp buf. induction ws as [|w rest IH]; intros sp buf; [reflexivity|].
  cbn [group_from map].
  change (squeeze (sp :: aw_speaker w :: map aw_speaker rest))
    with (if decide (sp = aw_speaker w)
          then squeeze (aw_speaker w :: map aw_speaker rest)
          else sp :: squeeze (aw_speaker w :: map aw_speaker rest)).
  destruct (decide (aw_speaker w = sp)) as [Heq|Hne].
  - destruct (decide (sp = aw_speaker w)); [|congruence].
    rewrite IH, Heq. reflexivity.
  - destruct (decide (sp = aw_speaker w)); [congruence|].
    cbn [map utt_speaker]. now rewrite IH.
Qed.

(** X5.  The speakers of the utterances, in order, are the speakers of the
    words with every block of equal neighbours cut down to one: the grouper
    reads nothing but the order of the speaker labels to place its cuts. *)
Theorem group_speakers (assigned : list AssignedWord) :
  map utt_speaker (group assigned) = squeeze (map aw_speaker assigned).
Proof.
  destruct assigned as [|w rest]; [reflexivity|].
  rewrite group_cons. apply group_from_speakers.
Qed.

Lemma group_from_split (l1 l2 : list AssignedWord) (a b : AssignedWord)
    (sp : string) (buf : list string) :
  aw_speaker a <> aw_speaker b ->
  group_from sp buf (l1 ++ a :: b :: l2)
  = group_from sp buf (l1 ++ [a])
      ++ group_from (aw_speaker b) [aw_word b] l2.
Proof.
  intros Hab. revert sp buf.
  induction l1 as [|x l1 IH]; intros sp buf.
  - cbn [app group_from].
    destruct (decide (aw_speaker a = sp)) as [Heq|Hne].
    + destruct (decide (aw_speaker b = sp)); [congruence|reflexivity].
    + destruct (decide (aw_speaker b = aw_speaker a)); [congruence|].
      reflexivity.
  - cbn [app group_from].
    destruct (decide (aw_speaker x = sp)); [apply IH|].
    rewrite IH. reflexivity.
Qed.

(** X6.  A change of speaker between two neighbouring words splits the
    grouping: the utterances of the whole list are the utterances of the
    words up to the change followed by the utterances of the words after
    it. *)
Theorem group_split_at_change (l1 l2 : list AssignedWord)
    (a b : AssignedWord) :
  aw_speaker a <> aw_speaker b ->
  group (l1 ++ a :: b :: l2) = group (l1 ++ [a]) ++ group (b :: l2).
Proof.
  intros Hab. rewrite (group_cons b l2).
  destruct l1 as [|x l1].
  - cbn [app]. rewrite !group_cons. cbn [group_from].
    destruct (decide (aw_speaker b = aw_speaker a)); [congruence|].
    reflexivity.
  - cbn [app]. rewrite !group_cons. now apply group_from_split.
Qed.

Lemma group_split_at_change_witness :
  group ([mkAssigned "so" 0 0.5 "S0"]
           ++ mkAssigned "what" 0.6 1 "S0" :: mkAssigned "well" 2 2.5 "S1"
           :: [mkAssigned "yes" 2.6 3 "S1"])
  = group ([mkAssigned "so" 0 0.5 "S0"] ++ [mkAssigned "what" 0.6 1 "S0"])
      ++ group (mkAssigned "well" 2 2.5 "S1" :: [mkAssigned "yes" 2.6 3 "S1"]).
Proof.
  apply (group_split_at_change [mkAssigned "so" 0 0.5 "S0"]
           [mkAssigned "yes" 2.6 3 "S1"] (mkAssigned "what" 0.6 1 "S0")
           (mkAssigned "well" 2 2.5 "S1")).
  discriminate.
Defined.

Lemma string_append_assoc (a b c : string) :
  (a +:+ b) +:+ c = a +:+ (b +:+ c).
Proof.
  induction a as [|x a IH]; [reflexivity|].
  change (String x ((a +:+ b) +:+ c) = String x (a +:+ (b +:+ c))).
  now rewrite IH.
Qed.

Lemma join_cons (w : string) (words : list string) :
  words <> [] -> join (w :: words) = w +:+ " " +:+ join words.
Proof. destruct words; [contradiction|reflexivity]. Qed.

Lemma join_app (l1 l2 : list string) :
  l1 <> [] -> l2 <> [] ->
  join (l1 ++ l2) = join l1 +:+ " " +:+ join l2.
Proof.
  intros H1 H2. induction l1 as [|w l1 IH]; [contradiction|].
  destruct l1 as [|w' l1].
  - cbn [app]. now rewrite join_cons.
  - change ((w :: w' :: l1) ++ l2) with (w :: ((w' :: l1) ++ l2)).
    rewrite join_cons by discriminate.
    rewrite IH by discriminate.
    rewrite (join_cons w (w' :: l1)) by discriminate.
    now rewrite !string_append_assoc.
Qed.

Lemma group_from_nonempty (ws : list AssignedWord) (sp : string)
    (buf : list string) :
  map utt_text (group_from sp buf ws) <> [].
Proof.
  intros H. apply (f_equal (@length string)) in H.
  rewrite length_map, group_from_length in H. discriminate.
Qed.

Lemma group_from_joined (ws : list AssignedWord) (sp : string)
    (buf : list string) :
  buf <> [] ->
  join (map utt_text (group_from sp buf ws)) = join (buf ++ map aw_word ws).
Proof.
  revert sp buf. induction ws as [|w rest IH]; intros sp buf Hbuf.
  - cbn [group_from map utt_text]. now rewrite app_nil_r.
  - cbn [group_from map].
    destruct (decide (aw_speaker w = sp)).
    + rewrite IH by (now destruct buf).
      now rewrite <- app_assoc.
    + cbn [map utt_text].
      rewrite join_cons by apply group_from_nonempty.
      rewrite IH by discriminate.
      rewrite (join_app buf) by (auto; discriminate). reflexivity.
Qed.

(** X7.  The utterance texts joined by single spaces are the word texts
    joined by single spaces: the grouper drops, adds and reorders no
    character, whatever the word texts hold. *)
Theorem group_texts_joined (assigned : list AssignedWord) :
  join (map utt_text (group assigned)) = join (map aw_word assigned).
Proof.
  destruct assigned as [|w rest]; [reflexivity|].
  rewrite group_cons. now rewrite group_from_joined.
Qed.


(** ** More on the smoothing pass *)

Lemma sweep_length (ws : list AssignedWord) : length (sweep ws) = length ws.
Proof.
  destruct ws as [|first rest]; [reflexivity|].
  cbn [sweep length]. now rewrite cascade_length.
Qed.

Lemma set_speaker_same (w : AssignedWord) : set_speaker w (aw_speaker w) = w.
Proof. now destruct w. Qed.

(** The sweep does not add speaker changes: counted from any label [s0]
    before the input against the label of [prev] before the output. *)
Lemma cascade_changes (rest : list AssignedWord) (prev : AssignedWord)
    (s0 : string) :
  (changes (aw_speaker prev) (cascade prev rest)
   <= changes s0 rest + (if decide (s0 = aw_speaker prev) then 0 else 1))%nat.
Proof.
  revert prev s0. induction rest as [|c rest IH]; intros prev s0.
  - simpl. lia.
  - cbn [cascade changes].
    destruct (aw_start c - aw_end prev <? gap_threshold).
    + specialize (IH (set_speaker c (aw_speaker prev)) (aw_speaker c)).
      cbn [set_speaker aw_speaker] in *.
      destruct (decide (aw_speaker prev = aw_speaker prev)); [|congruence].
      destruct (decide (aw_speaker c = s0)),
               (decide (s0 = aw_speaker prev)),
               (decide (aw_speaker c = aw_speaker prev));
        try congruence; lia.
    + specialize (IH c (aw_speaker c)).
      destruct (decide (aw_speaker c = aw_speaker c)); [|congruence].
      destruct (decide (aw_speaker c = s0)),
               (decide (s0 = aw_speaker prev)),
               (decide (aw_speaker c = aw_speaker prev));
        try congruence; lia.
Qed.

(** X8.  Smoothing never adds an utterance: the transcript built from the
    smoothed words has at most as many utterances as the transcript built
    from the words as the aligner labelled them. *)
Theorem smoothing_no_more_utterances (assigned : list AssignedWord) :
  (length (group (smooth assigned)) <= length (group assigned))%nat.
Proof.
  rewrite smooth_sweep.
  destruct assigned as [|first rest]; [reflexivity|].
  cbn [sweep]. rewrite !group_cons, !group_from_length.
  pose proof (cascade_changes rest first (aw_speaker first)) as H.
  destruct (decide (aw_speaker first = aw_speaker first)); [|congruence].
  lia.
Qed.

(** X9.  The smoothing pass in closed form: the word at [i] comes out as
    the word that went in, with the speaker that the first word of its run
    had on entry, where the run of [i] is the longest stretch ending at [i]
    of gaps that pass the test [gap < 0.25] of the code, the gap being the
    difference [start - end] as the code computes it. *)
Theorem smoothing_closed_form (assigned : list AssignedWord) (i : nat)
    (w : AssignedWord) :
  smooth assigned !! i = Some w ->
  exists j first orig,
    (j <= i)%nat
    /\ assigned !! j = Some first
    /\ assigned !! i = Some orig
    /\ w = set_speaker orig (aw_speaker first)
    /\ (forall k, (j <= k < i)%nat -> tight assigned k)
    /\ (j = 0%nat \/ ~ tight assigned (j - 1)).
Proof.
  rewrite smooth_sweep. revert w.
  induction i as [|i IH]; intros w Hw.
  - exists 0%nat, w, w.
    assert (H0 : assigned !! 0%nat = Some w)
      by (destruct assigned; exact Hw).
    repeat split; auto; try lia.
    symmetry. apply set_speaker_same.
  - assert (Hlen : (S i < length assigned)%nat).
    { rewrite <- sweep_length. eapply lookup_lt_Some. exact Hw. }
    destruct (lookup_lt_is_Some_2 assigned i) as [p Hp]; [lia|].
    destruct (lookup_lt_is_Some_2 assigned (S i)) as [c Hc]; [lia|].
    destruct (sweep_adjacent assigned i p c Hp Hc) as (p' & Hp' & Hc').
    rewrite Hw in Hc'. injection Hc' as ->.
    destruct (aw_start c - aw_end p <? gap_threshold) eqn:E.
    + destruct (IH p' Hp')
        as (j & first & orig & Hj & Hfirst & Horig & -> & Hrun & Hstart).
      exists j, first, c. cbn [set_speaker aw_speaker].
      repeat split; auto; try lia.
      intros k Hk. destruct (decide (k = i)) as [->|Hne].
      * exists p, c. auto.
      * apply Hrun. lia.
    + exists (S i), c, c.
      repeat split; auto; try lia.
      * symmetry. apply set_speaker_same.
      * right. replace (S i - 1)%nat with i by lia.
        intros (p0 & c0 & Hp0 & Hc0 & Hgap).
        rewrite Hp in Hp0. rewrite Hc in Hc0.
        injection Hp0 as <-. injection Hc0 as <-.
        congruence.
Qed.

Lemma smoothing_closed_form_witness :
  exists j first orig,
    (j <= 2)%nat
    /\ [mkAssigned "so" 0 0.5 "A"; mkAssigned "what" 0.6 1 "B";
        mkAssigned "now" 0.9 1.5 "C"] !! j = Some first
    /\ [mkAssigned "so" 0 0.5 "A"; mkAssigned "what" 0.6 1 "B";
        mkAssigned "now" 0.9 1.5 "C"] !! 2%nat = Some orig
    /\ mkAssigned "now" 0.9 1.5 "A" = set_speaker orig (aw_speaker first)
    /\ (forall k, (j <= k < 2)%nat ->
          tight [mkAssigned "so" 0 0.5 "A"; mkAssigned "what" 0.6 1 "B";
                 mkAssigned "now" 0.9 1.5 "C"] k)
    /\ (j = 0%nat
        \/ ~ tight [mkAssigned "so" 0 0.5 "A"; mkAssigned "what" 0.6 1 "B";
                    mkAssigned "now" 0.9 1.5 "C"] (j - 1)).
Proof.
  apply (smoothing_closed_form
           [mkAssigned "so" 0 0.5 "A"; mkAssigned "what" 0.6 1 "B";
            mkAssigned "now" 0.9 1.5 "C"] 2 (mkAssigned "now" 0.9 1.5 "A")).
  reflexivity.
Defined.

Lemma cascade_split (l1 l2 : list AssignedWord) (prev a b : AssignedWord) :
  ~ aw_start b - aw_end a < gap_threshold ->
  cascade prev (l1 ++ a :: b :: l2)
  = cascade prev (l1 ++ [a]) ++ b :: cascade b l2.
Proof.
  intros Hloose. revert prev.
  induction l1 as [|x l1 IH]; intros prev.
  - cbn [app cascade].
    set (a' := if aw_start a - aw_end prev <? gap_threshold
               then set_speaker a (aw_speaker prev) else a).
    assert (Hend : aw_end a' = aw_end a)
      by (unfold a'; destruct (aw_start a - aw_end prev <? gap_threshold);
          reflexivity).
    rewrite Hend.
    destruct (aw_start b - aw_end a <? gap_threshold) eqn:E;
      [contradiction|reflexivity].
  - cbn [app cascade]. now rewrite IH.
Qed.

(** X10.  A gap between two neighbouring words that fails the test
    [gap < 0.25] of the code (the gap being the difference [start - end] as
    the code computes it) splits the smoothing: the words up to the gap and
    the words after it are smoothed as two lists of their own, so no label
    crosses it. *)
Theorem smoothing_split_at_pause (l1 l2 : list AssignedWord)
    (a b : AssignedWord) :
  ~ aw_start b - aw_end a < gap_threshold ->
  smooth (l1 ++ a :: b :: l2) = smooth (l1 ++ [a]) ++ smooth (b :: l2).
Proof.
  intros Hloose. rewrite !smooth_sweep.
  destruct l1 as [|x l1]; cbn [app sweep].
  - cbn [cascade].
    destruct (aw_start b - aw_end a <? gap_threshold) eqn:E;
      [contradiction|reflexivity].
  - now rewrite cascade_split.
Qed.

Lemma smoothing_split_at_pause_witness :
  smooth ([mkAssigned "so" 0 0.5 "A"]
            ++ mkAssigned "what" 0.6 1 "B" :: mkAssigned "well" 1.25 2 "C"
            :: [mkAssigned "yes" 2.1 3 "D"])
  = smooth ([mkAssigned "so" 0 0.5 "A"] ++ [mkAssigned "what" 0.6 1 "B"])
      ++ smooth (mkAssigned "well" 1.25 2 "C" :: [mkAssigned "yes" 2.1 3 "D"]).
Proof.
  apply (smoothing_split_at_pause [mkAssigned "so" 0 0.5 "A"]
           [mkAssigned "yes" 2.1 3 "D"] (mkAssigned "what" 0.6 1 "B")
           (mkAssigned "well" 1.25 2 "C")).
  intros H. vm_compute in H. discriminate H.
Defined.


(** ** The word loops and the two scripts *)

Lemma for_each_ext {A B : Type} (f g : A -> result B) (xs : list A) :
  Forall (fun x => f x = g x) xs -> for_each f xs = for_each g xs.
Proof.
  induction 1 as [|x rest Hx _ IH]; simpl; [reflexivity|].
  now rewrite Hx, IH.
Qed.


(** X11.  On a word record that has the keys ['word'], ['start'] and
    ['end'], the word loop of [video_transcriber.py] and the word loop of
    [transcript_gen_logic.py] do the same: the same entry, or the same
    exception. *)
Theorem word_loops_agree (speaker_segments : list Segment)
    (word_data : word_record) :
  complete word_data ->
  VideoTranscriber.assign_word speaker_segments word_data
  = TranscriptGenLogic.assign_word speaker_segments word_data.
Proof.
  intros ([w Hw] & [s Hs] & [e He]).
  unfold VideoTranscriber.assign_word, assign_word, w_start, w_end,
    dict_get, dict_index.
  rewrite Hw, Hs, He. cbn [bind ret].
  destruct s as [qs|]; [|reflexivity].
  destruct e as [qe|]; reflexivity.
Qed.

Lemma word_loops_agree_witness :
  VideoTranscriber.assign_word [mkSegment 0 1 "S0"]
    (list_to_map [("word", JStr "hi"); ("start", JNum 0.1); ("end", JNum 0.4)])
  = TranscriptGenLogic.assign_word [mkSegment 0 1 "S0"]
      (list_to_map [("word", JStr "hi"); ("start", JNum 0.1);
                    ("end", JNum 0.4)]).
Proof.
  apply (word_loops_agree [mkSegment 0 1 "S0"]
           (list_to_map [("word", JStr "hi"); ("start", JNum 0.1);
                         ("end", JNum 0.4)])).
  repeat split; eexists; reflexivity.
Defined.

(** X12.  The two scripts build the same transcript: on word records that
    all have the keys ['word'], ['start'] and ['end'], and turns whose
    computed duration is a number (no NaN), [video_transcriber.py] ends with
    the list (or the exception) that [generate_transcript] returns on the
    same word records, be it from the segments the script saved or from all
    the turns of the diarization. *)
Theorem scripts_agree (word_timestamps : list word_record)
    (tracks : list VideoTranscriber.Track) :
  Forall complete word_timestamps ->
  Forall (fun t => is_number (VideoTranscriber.turn_end t
                              - VideoTranscriber.turn_start t)) tracks ->
  VideoTranscriber.final_transcript word_timestamps tracks
  = generate_transcript (Some word_timestamps)
      (VideoTranscriber.speaker_segments_of tracks)
  /\ VideoTranscriber.final_transcript word_timestamps tracks
     = generate_transcript (Some word_timestamps)
         (map segment_of_track tracks).
Proof.
  intros Hall Hnum.
  assert (Hkept : VideoTranscriber.speaker_segments_of tracks
                  = filter_short_segments (map segment_of_track tracks)
                      default_threshold)
    by exact (keep_turn_loop tracks [] Hnum).
  assert (Hraw : VideoTranscriber.final_transcript word_timestamps tracks
                 = generate_transcript (Some word_timestamps)
                     (map segment_of_track tracks)).
  { unfold VideoTranscriber.final_transcript, generate_transcript.
    cbn [default]. rewrite <- Hkept.
    rewrite (for_each_ext
               (VideoTranscriber.assign_word
                  (VideoTranscriber.speaker_segments_of tracks))
               (assign_word (VideoTranscriber.speaker_segments_of tracks))).
    - reflexivity.
    - eapply Forall_impl; [exact Hall|].
      intros wd ([w Hw] & [s Hs] & [e He]).
      unfold VideoTranscriber.assign_word, assign_word, w_start, w_end,
        dict_get, dict_index.
      rewrite Hw, Hs, He. cbn [bind ret].
      destruct s as [qs|]; [|reflexivity].
      destruct e as [qe|]; reflexivity. }
  split; [|exact Hraw].
  rewrite Hraw. unfold generate_transcript. rewrite Hkept.
  rewrite (filter_short_segments_all (filter_short_segments _ _))
    by apply filter_short_segments_long.
  reflexivity.
Qed.

Lemma scripts_agree_witness :
  VideoTranscriber.final_transcript
    [list_to_map [("word", JStr "hi"); ("start", JNum 0.1); ("end", JNum 0.4)];
     list_to_map [("word", JStr "you"); ("start", JNum 1.5); ("end", JNum 1.9)]]
    [VideoTranscriber.mkTrack 0 1 "S0"; VideoTranscriber.mkTrack 1 1.2 "S2";
     VideoTranscriber.mkTrack 1.2 2 "S1"]
  = generate_transcript
      (Some
         [list_to_map [("word", JStr "hi"); ("start", JNum 0.1);
                       ("end", JNum 0.4)];
          list_to_map [("word", JStr "you"); ("start", JNum 1.5);
                       ("end", JNum 1.9)]])
      (map segment_of_track
         [VideoTranscriber.mkTrack 0 1 "S0"; VideoTranscriber.mkTrack 1 1.2 "S2";
          VideoTranscriber.mkTrack 1.2 2 "S1"]).
Proof.
  apply (proj2 (scripts_agree
           [list_to_map [("word", JStr "hi"); ("start", JNum 0.1);
                         ("end", JNum 0.4)];
            list_to_map [("word", JStr "you"); ("start", JNum 1.5);
                         ("end", JNum 1.9)]]
           [VideoTranscriber.mkTrack 0 1 "S0";
            VideoTranscriber.mkTrack 1 1.2 "S2";
            VideoTranscriber.mkTrack 1.2 2 "S1"]
           ltac:(repeat constructor; eexists; reflexivity)
           ltac:(repeat constructor))).
Defined.


(** ** Where the speakers of the transcript come from *)


Section speakers.

Variable P : string -> Prop.





End speakers.









(** ** Rounding and the nearest segment *)

(** X16.  The label does not depend on relative times only: the distances
    are rounded differences, and moving a word and every segment by the
    same offset can change which of them is smaller.  The word [0.9, 1.0]
    is nearer to the second of the segments [0, 0.5] and [1.4, 2] and takes
    its label; one second later the two distances are equal and the word
    takes the label of the first. *)
Theorem aligner_shift_sensitive :
  get_speaker_improved 0.9 1.0 [mkSegment 0 0.5 "A"; mkSegment 1.4 2 "B"] = "B"
  /\ get_speaker_improved (0.9 + 1) (1.0 + 1)
       [mkSegment (0 + 1) (0.5 + 1) "A"; mkSegment (1.4 + 1) (2 + 1) "B"]
     = "A"
  /\ seg_dist 0.9 1.0 (mkSegment 1.4 2 "B") < seg_dist 0.9 1.0 (mkSegment 0 0.5 "A")
  /\ seg_dist (0.9 + 1) (1.0 + 1) (mkSegment (1.4 + 1) (2 + 1) "B")
     = seg_dist (0.9 + 1) (1.0 + 1) (mkSegment (0 + 1) (0.5 + 1) "A").
Proof. repeat split; reflexivity. Qed.


(** ** The lines of the transcript file *)

Lemma append_bracket_inj (sp sp' rest rest' : string) :
  no_bracket sp = true -> no_bracket sp' = true ->
  sp +:+ String "]" rest = sp' +:+ String "]" rest' ->
  sp = sp' /\ rest = rest'.
Proof.
  revert sp'. induction sp as [|c sp IH]; intros [|c' sp'] Hsp Hsp' Heq;
    cbn [String.append] in Heq.
  - injection Heq as ->. auto.
  - injection Heq as <- _. simpl in Hsp'. discriminate.
  - injection Heq as -> _. simpl in Hsp. discriminate.
  - injection Heq as -> Heq.
    simpl in Hsp, Hsp'. apply andb_true_iff in Hsp, Hsp'.
    destruct (IH sp' (proj2 Hsp) (proj2 Hsp') Heq) as [-> ->]. auto.
Qed.

Lemma append_char_inj (text text' : string) (c : ascii) :
  text +:+ String c "" = text' +:+ String c "" -> text = text'.
Proof.
  revert text'. induction text as [|x text IH]; intros [|x' text'] Heq;
    cbn [String.append] in Heq.
  - reflexivity.
  - injection Heq as _ Heq. destruct text'; discriminate.
  - injection Heq as _ Heq. destruct text; discriminate.
  - injection Heq as -> Heq. now rewrite (IH text' Heq).
Qed.

(** X17.  A line of the transcript file determines its utterance: two
    utterances whose speaker labels hold no closing bracket and that are
    written as the same line have the same speaker and the same text. *)
Theorem format_line_injective (line line' : Utterance) :
  no_bracket (utt_speaker line) = true ->
  no_bracket (utt_speaker line') = true ->
  format_line line = format_line line' ->
  line = line'.
Proof.
  destruct line as [sp text], line' as [sp' text'].
  unfold format_line. cbn [utt_speaker utt_text].
  intros Hsp Hsp' Heq.
  change ("[" +:+ sp +:+ "]: " +:+ text +:+ String (ascii_of_nat 10) "")
    with (String "[" (sp +:+ String "]"
            (String ":" (String " " (text +:+ String (ascii_of_nat 10) "")))))
    in Heq.
  change ("[" +:+ sp' +:+ "]: " +:+ text' +:+ String (ascii_of_nat 10) "")
    with (String "[" (sp' +:+ String "]"
            (String ":" (String " " (text' +:+ String (ascii_of_nat 10) "")))))
    in Heq.
  injection Heq as Heq.
  destruct (append_bracket_inj _ _ _ _ Hsp Hsp' Heq) as [-> Hrest].
  injection Hrest as Hrest.
  now rewrite (append_char_inj _ _ _ Hrest).
Qed.

Lemma format_line_injective_witness :
  {| utt_speaker := "SPEAKER_00"; utt_text := "hi there" |}
  = {| utt_speaker := "SPEAKER_00"; utt_text := "hi there" |}.
Proof.
  apply (format_line_injective
           {| utt_speaker := "SPEAKER_00"; utt_text := "hi there" |}
           {| utt_speaker := "SPEAKER_00"; utt_text := "hi there" |});
    reflexivity.
Defined.

(** ** The word loop of video_transcriber.py *)

(** X18.  The word loop of [video_transcriber.py] raises [KeyError] for
    the first missing key among ['word'], ['start'] and ['end'], in this
    order, and for no other key; and it never reads the aliases: adding or
    changing ['start_offset'] or ['end_offset'] changes nothing. *)
Theorem video_transcriber_word_loop (speaker_segments : list Segment)
    (word_data : word_record) :
  (word_data !! "word" = None ->
   VideoTranscriber.assign_word speaker_segments word_data
   = raise (KeyError "word"))
  /\ (is_Some (word_data !! "word") -> word_data !! "start" = None ->
      VideoTranscriber.assign_word speaker_segments word_data
      = raise (KeyError "start"))
  /\ (is_Some (word_data !! "word") -> is_Some (word_data !! "start") ->
      word_data !! "end" = None ->
      VideoTranscriber.assign_word speaker_segments word_data
      = raise (KeyError "end"))
  /\ (forall key,
        VideoTranscriber.assign_word speaker_segments word_data
        = raise (KeyError key) ->
        word_data !! key = None
        /\ (key = "word" \/ key = "start" \/ key = "end"))
  /\ (forall v,
        VideoTranscriber.assign_word speaker_segments
          (<["start_offset" := v]> word_data)
        = VideoTranscriber.assign_word speaker_segments word_data
        /\ VideoTranscriber.assign_word speaker_segments
             (<["end_offset" := v]> word_data)
           = VideoTranscriber.assign_word speaker_segments word_data).
Proof.
  unfold VideoTranscriber.assign_word, dict_index.
  split; [|split; [|split; [|split]]].
  - intros ->. reflexivity.
  - intros [w ->] ->. reflexivity.
  - intros [w ->] [s ->] ->. reflexivity.
  - intros key.
    destruct (word_data !! "word") eqn:Ew; cbn [bind ret raise];
      [|intros [= <-]; auto].
    destruct (word_data !! "start") as [s|] eqn:Es; cbn [bind ret raise];
      [|intros [= <-]; auto].
    destruct (word_data !! "end") as [e|] eqn:Ee; cbn [bind ret raise];
      [|intros [= <-]; auto].
    destruct s; cbn [as_number bind ret raise]; [|discriminate].
    destruct e; cbn [as_number bind ret raise]; discriminate.
  - intros v. split; now rewrite !lookup_insert_ne by discriminate.
Qed.

Lemma video_transcriber_word_loop_witness :
  VideoTranscriber.assign_word [mkSegment 0 1 "S0"]
    (list_to_map [("word", JStr "hi"); ("start_offset", JNum 0.1);
                  ("end", JNum 0.4)])
  = raise (KeyError "start").
Proof.
  apply (proj1 (proj2 (video_transcriber_word_loop [mkSegment 0 1 "S0"]
           (list_to_map [("word", JStr "hi"); ("start_offset", JNum 0.1);
                         ("end", JNum 0.4)])))).
  - eexists. reflexivity.
  - reflexivity.
Defined.
